(** * Rate and saturation limiting primitives of sweetiebot

    A shallow embedding of the [package sweetiebot] part of
    [src/main/main.go]: [realmod], the [SaturationLimit] ring of event
    timestamps with [append], [check], [checkafter] and [resize], and the
    single-cell debounce gate [CheckRateLimit] / [RateLimit].

    Conventions.
    - Go's [int] and [int64] are 64-bit two's complement integers (the
      targets the bot is built for); they are values of [Z] kept in range
      by an explicit [Int.wrap] after every [+] and [-].
    - A run-time panic (integer division by zero, index out of range,
      [make] with a length out of range) is an [outcome] of its own.
    - Every method of [SaturationLimit] holds the instance's mutex from
      its first to its last statement, so a method is one atomic state
      transformer and the [lock] field carries no data.
    - [sync/atomic] operations are sequentially consistent; concurrent
      callers of [RateLimit] are modelled by interleaving their atomic
      steps. *)

From Stdlib Require Import ZArith Lia List.
From stdpp Require Import base numbers list.

Local Open Scope Z_scope.

(** ** Machine integers *)

Module Int.

Definition min_int : Z := - 2 ^ 63.
Definition max_int : Z := 2 ^ 63 - 1.
Definition modulus : Z := 2 ^ 64.

Definition in_range (x : Z) : Prop := min_int <= x <= max_int.

(** Two's complement reduction of a mathematical integer. *)
Definition wrap (x : Z) : Z := (x - min_int) `mod` modulus + min_int.

Definition add (x y : Z) : Z := wrap (x + y).
Definition sub (x y : Z) : Z := wrap (x - y).

End Int.

(** ** Panics *)

Inductive panic : Type :=
  | DivideByZero
  | IndexOutOfRange (i len : Z)
  | MakesliceLenOutOfRange.

Inductive outcome (A : Type) : Type :=
  | Ok (a : A)
  | Panic (p : panic).
Arguments Ok {A} a.
Arguments Panic {A} p.

(** Go's [x % m]: the remainder of the division truncated towards zero;
    a zero divisor panics.  ([min_int % -1] is 0 and does not panic.) *)
Definition go_rem (x m : Z) : outcome Z :=
  if m =? 0 then Panic DivideByZero else Ok (x `rem` m).

(** ** Slices of int64 *)

Definition len (l : list Z) : Z := Z.of_nat (length l).

(** [l[i]] as an r-value. *)
Definition slice_get (l : list Z) (i : Z) : outcome Z :=
  if (0 <=? i) && (i <? len l) then
    match l !! Z.to_nat i with
    | Some v => Ok v
    | None => Panic (IndexOutOfRange i (len l))
    end
  else Panic (IndexOutOfRange i (len l)).

(** [l[i] = v]. *)
Definition slice_set (l : list Z) (i v : Z) : outcome (list Z) :=
  if (0 <=? i) && (i <? len l) then Ok (<[Z.to_nat i := v]> l)
  else Panic (IndexOutOfRange i (len l)).

(** The run-time check of [make]: the bytes asked for may not exceed
    [maxAlloc], which is 2^48 on the 64-bit targets with 48 address bits
    (linux/amd64 among them); an [int64] takes 8 bytes. *)
Definition max_alloc : Z := 2 ^ 48.
Definition int64_size : Z := 8.

(** A length [make([]int64, size, size)] accepts. *)
Definition allocatable (size : Z) : Prop :=
  0 <= size /\ int64_size * size <= max_alloc.

(** [make([]int64, size, size)]: zero-filled; a negative length, and a
    length that needs more than [maxAlloc] bytes, panic with
    "makeslice: len out of range".  (A length that passes this check and
    still exhausts the memory of the machine is not modelled.) *)
Definition make_slice (size : Z) : outcome (list Z) :=
  if (size <? 0) || (max_alloc <? int64_size * size)
  then Panic MakesliceLenOutOfRange
  else Ok (replicate (Z.to_nat size) 0).

(** [copy(dst, src)]: the first [min(len dst, len src)] elements of [src]
    overwrite the start of [dst]. *)
Definition copy (dst src : list Z) : list Z :=
  take (length dst) src ++ drop (length src) dst.

(** ** realmod *)

(** [[
func realmod(x int, m int) int {
	x %= m
	if x < 0 {
		x += m
	}
	return x
}
]] *)
Definition realmod (x m : Z) : outcome Z :=
  match go_rem x m with
  | Panic p => Panic p
  | Ok x => Ok (if x <? 0 then Int.add x m else x)
  end.

(** ** SaturationLimit *)

Record SaturationLimit : Type := mkSaturationLimit {
  times : list Z;
  index : Z
}.

(** A method body: it may change the receiver and may panic; the receiver
    keeps whatever was assigned before the panic. *)
Definition method (A : Type) : Type :=
  SaturationLimit -> outcome A * SaturationLimit.

Definition ret {A} (a : A) : method A := fun s => (Ok a, s).

Definition bind {A B} (m : method A) (k : A -> method B) : method B :=
  fun s =>
    match m s with
    | (Ok a, s') => k a s'
    | (Panic p, s') => (Panic p, s')
    end.

Definition lift {A} (r : outcome A) : method A := fun s => (r, s).

Definition get_index : method Z := fun s => (Ok (index s), s).
Definition get_times : method (list Z) := fun s => (Ok (times s), s).
Definition set_index (i : Z) : method unit :=
  fun s => (Ok tt, mkSaturationLimit (times s) i).
Definition set_times (l : list Z) : method unit :=
  fun s => (Ok tt, mkSaturationLimit l (index s)).

Declare Scope method_scope.
Delimit Scope method_scope with method.
Notation "x <- m ;; k" := (bind m (fun x => k))
  (at level 20, m at level 99, k at level 200) : method_scope.
Notation "m ;; k" := (bind m (fun _ => k))
  (at level 100, k at level 200, right associativity) : method_scope.

Local Open Scope method_scope.

(** [[
func (s *SaturationLimit) append(t int64) {
	s.index = realmod(s.index+1, len(s.times))
	s.times[s.index] = t
}
]] *)
Definition append (t : Z) : method unit :=
  idx <- get_index;;
  ts <- get_times;;
  i <- lift (realmod (Int.add idx 1) (len ts));;
  set_index i;;
  idx <- get_index;;
  ts <- get_times;;
  ts' <- lift (slice_set ts idx t);;
  set_times ts'.

(** The slot that [check] reads: [i := realmod(s.index-(num-1), len(s.times))]. *)
Definition check_slot (num : Z) : method Z :=
  idx <- get_index;;
  ts <- get_times;;
  lift (realmod (Int.sub idx (Int.sub num 1)) (len ts)).

(** The timestamp that [check] reads: [s.times[i]]. *)
Definition check_read (num : Z) : method Z :=
  i <- check_slot num;;
  ts <- get_times;;
  lift (slice_get ts i).

(** [[
func (s *SaturationLimit) check(num int, period int64, curtime int64) bool {
	i := realmod(s.index-(num-1), len(s.times))
	return (curtime - s.times[i]) <= period
}
]] *)
Definition check (num period curtime : Z) : method bool :=
  v <- check_read num;;
  ret (Int.sub curtime v <=? period).

(** The slot that [checkafter] reads: [i := realmod(s.index-num, len(s.times))]. *)
Definition checkafter_slot (num : Z) : method Z :=
  idx <- get_index;;
  ts <- get_times;;
  lift (realmod (Int.sub idx num) (len ts)).

(** The timestamp that [checkafter] compares the cursor's with: [s.times[i]]. *)
Definition checkafter_read (num : Z) : method Z :=
  i <- checkafter_slot num;;
  ts <- get_times;;
  lift (slice_get ts i).

(** [[
func (s *SaturationLimit) checkafter(num int, period int64) bool {
	i := realmod(s.index-num, len(s.times))
	return (s.times[s.index] - s.times[i]) <= period
}
]] *)
Definition checkafter (num period : Z) : method bool :=
  i <- checkafter_slot num;;
  ts <- get_times;;
  idx <- get_index;;
  cur <- lift (slice_get ts idx);;
  old <- lift (slice_get ts i);;
  ret (Int.sub cur old <=? period).

(** [[
func (s *SaturationLimit) resize(size int) {
	n := make([]int64, size, size)
	copy(n, s.times)
	s.times = n
}
]] *)
Definition resize (size : Z) : method unit :=
  n <- lift (make_slice size);;
  ts <- get_times;;
  set_times (copy n ts).

(** Appending a sequence of timestamps, oldest first. *)
Fixpoint appends (l : list Z) : method unit :=
  match l with
  | [] => ret tt
  | t :: l' => append t;; appends l'
  end.


(** ** The debounce cell *)

(** The shared [int64] behind [prevtime *int64], touched only through
    [sync/atomic]; an atomic operation is a transformer of the cell. *)
Definition atomic (A : Type) : Type := Z -> A * Z.

Definition LoadInt64 : atomic Z := fun c => (c, c).

Definition CompareAndSwapInt64 (old new : Z) : atomic bool :=
  fun c => if c =? old then (true, new) else (false, c).

(** [[
func CheckRateLimit(prevtime *int64, interval int64) bool {
	return time.Now().UTC().Unix()-atomic.LoadInt64(prevtime) > interval
}
]]
    [now] is the value of [time.Now().UTC().Unix()]. *)
Definition CheckRateLimit (now interval : Z) : atomic bool :=
  fun c =>
    let (d, c) := LoadInt64 c in
    (Int.sub now d >? interval, c).

(** [[
func RateLimit(prevtime *int64, interval int64) bool {
	t := time.Now().UTC().Unix()
	for {
		d := atomic.LoadInt64(prevtime)
		if t-d <= interval {
			return false
		}
		if atomic.CompareAndSwapInt64(prevtime, d, t) {
			return true
		}
	}
}
]]
    A caller that runs alone: nothing touches the cell between its load
    and its compare-and-swap.  [fuel] bounds the number of iterations;
    [None] is fuel exhausted. *)
Fixpoint RateLimit_loop (fuel : nat) (t interval : Z) (c : Z)
  : option (bool * Z) :=
  match fuel with
  | O => None
  | S fuel' =>
      let (d, c) := LoadInt64 c in
      if Int.sub t d <=? interval then Some (false, c)
      else
        let (swapped, c) := CompareAndSwapInt64 d t c in
        if swapped then Some (true, c)
        else RateLimit_loop fuel' t interval c
  end.

Definition RateLimit (fuel : nat) (now interval : Z) (c : Z)
  : option (bool * Z) :=
  let t := now in RateLimit_loop fuel t interval c.

(** Successive calls by one caller at the clock readings [nows]; the
    answers come back in call order together with the final cell. *)
Fixpoint RateLimit_calls (fuel : nat) (nows : list Z) (interval : Z) (c : Z)
  : option (list bool * Z) :=
  match nows with
  | [] => Some ([], c)
  | now :: nows' =>
      match RateLimit fuel now interval c with
      | None => None
      | Some (b, c') =>
          match RateLimit_calls fuel nows' interval c' with
          | None => None
          | Some (bs, c'') => Some (b :: bs, c'')
          end
      end
  end.

(** *** Concurrent callers

    Each caller has read the clock ([t]) and is either about to load the
    cell, about to compare-and-swap with the value [d] it loaded, or has
    returned. *)
Inductive caller : Type :=
  | AtLoad (t : Z)
  | AtCAS (t d : Z)
  | Returned (t : Z) (b : bool).

(** One atomic step of one caller on the shared cell. *)
Definition caller_step (interval : Z) (th : caller) : atomic caller :=
  fun c =>
    match th with
    | AtLoad t =>
        let (d, c) := LoadInt64 c in
        if Int.sub t d <=? interval then (Returned t false, c)
        else (AtCAS t d, c)
    | AtCAS t d =>
        let (swapped, c) := CompareAndSwapInt64 d t c in
        if swapped then (Returned t true, c) else (AtLoad t, c)
    | Returned t b => (Returned t b, c)
    end.

Definition returned (th : caller) : bool :=
  match th with Returned _ _ => true | _ => false end.

Definition won (th : caller) : bool :=
  match th with Returned _ true => true | _ => false end.

Definition lost (th : caller) : bool :=
  match th with Returned _ false => true | _ => false end.

(** The shared cell and the callers, with two logs kept for the proofs
    (oldest entry first): the values stored into the cell by successful
    compare-and-swaps, with who stored them; and the calls that have
    returned, in the order of the atomic operation that decided them,
    with their clock reading and their answer. *)
Record config : Type := mkConfig {
  cell : Z;
  callers : list caller;
  stores : list (nat * Z);
  returns : list (nat * (Z * bool))
}.

Definition log_return (i : nat) (th : caller) (log : list (nat * (Z * bool)))
  : list (nat * (Z * bool)) :=
  match th with
  | Returned t b => log ++ [(i, (t, b))]
  | _ => log
  end.

(** Caller [i] is scheduled for one step. *)
Definition sched (interval : Z) (i : nat) (cf : config) : option config :=
  match callers cf !! i with
  | None => None
  | Some th =>
      if returned th then None
      else
        let (th', c') := caller_step interval th (cell cf) in
        Some (mkConfig c' (<[i := th']> (callers cf))
                (if won th' then stores cf ++ [(i, c')] else stores cf)
                (log_return i th' (returns cf)))
  end.

Inductive step (interval : Z) : config -> config -> Prop :=
  | step_sched i cf cf' : sched interval i cf = Some cf' -> step interval cf cf'.

(** [n] steps. *)
Inductive steps (interval : Z) : nat -> config -> config -> Prop :=
  | steps_O cf : steps interval O cf cf
  | steps_S n cf cf' cf'' :
      step interval cf cf' -> steps interval n cf' cf'' ->
      steps interval (S n) cf cf''.

(** Running a schedule (a list of caller numbers); a number that names no
    caller, or one that has returned, is skipped. *)
Fixpoint run (interval : Z) (schedule : list nat) (cf : config) : config :=
  match schedule with
  | [] => cf
  | i :: rest =>
      match sched interval i cf with
      | Some cf' => run interval rest cf'
      | None => run interval rest cf
      end
  end.

Definition init (d0 : Z) (ts : list Z) : config :=
  mkConfig d0 (AtLoad <$> ts) [] [].

Definition final (cf : config) : Prop := forallb returned (callers cf) = true.


(** ** Notions the specification speaks in *)

(** A usable instance: at least one slot, a length that fits an [int]
    (as every Go slice length does), the cursor on a slot. *)
Definition wf (s : SaturationLimit) : Prop :=
  0 < len (times s) <= Int.max_int /\ 0 <= index s < len (times s).

(** Walking the ring of [C] slots one slot back, or one slot on, with the
    wrap at the buffer boundary. *)
Definition slot_back (C i : Z) : Z := if i =? 0 then C - 1 else i - 1.
Definition slot_on (C i : Z) : Z := if i =? C - 1 then 0 else i + 1.

(** The slot [k] slots behind slot [i]; a negative [k] is ahead of it. *)
Definition slots_behind (C i k : Z) : Z :=
  match k with
  | Z0 => i
  | Zpos p => Pos.iter (slot_back C) i p
  | Zneg p => Pos.iter (slot_on C) i p
  end.

(** The slot [k] slots behind the cursor of [s]. *)
Definition behind (s : SaturationLimit) (k : Z) : Z :=
  slots_behind (len (times s)) (index s) k.

(** The [k]-th most recent of the timestamps appended in the order [l]
    ([k = 0] is the last one appended). *)
Definition recent (l : list Z) (k : nat) : option Z := rev l !! k.

(** The state after a method, and its result. *)
Definition after {A} (m : method A) (s : SaturationLimit) : SaturationLimit := snd (m s).
Definition result {A} (m : method A) (s : SaturationLimit) : outcome A := fst (m s).

(** Callers racing on a fresh cell: each of them, running alone on the
    cell as seeded, would be let through, and none of them would be let
    through after any other. *)
Definition fresh_for (d0 interval : Z) (ts : list Z) : Prop :=
  Forall (fun t => interval < Int.sub t d0) ts.
Definition same_window (interval : Z) (ts : list Z) : Prop :=
  Forall (fun t => Forall (fun t' => Int.sub t t' <= interval) ts) ts.

(** How many callers satisfy [p]. *)
Fixpoint count (p : caller -> bool) (l : list caller) : nat :=
  match l with
  | [] => O
  | th :: l' => ((if p th then 1 else 0) + count p l')%nat
  end.

Definition count_won (cf : config) : nat := count won (callers cf).
Definition count_lost (cf : config) : nat := count lost (callers cf).

(** The race before the first successful compare-and-swap: the cell
    still holds its seed and every caller is about to load, or about to
    compare-and-swap against the seed. *)
Definition racing (d0 : Z) (ts : list Z) (cf : config) : Prop :=
  cell cf = d0 /\ stores cf = [] /\
  length (callers cf) = length ts /\
  forall i t th, ts !! i = Some t -> callers cf !! i = Some th ->
    th = AtLoad t \/ th = AtCAS t d0.

(** The race after caller [w] has stored its clock reading [tw]: [w] has
    returned true, the cell holds [tw], and everybody else is about to
    load, about to compare-and-swap against the stale seed, or has
    returned false. *)
Definition settled (d0 : Z) (ts : list Z) (w : nat) (tw : Z) (cf : config) : Prop :=
  ts !! w = Some tw /\ cell cf = tw /\ stores cf = [(w, tw)] /\
  callers cf !! w = Some (Returned tw true) /\
  length (callers cf) = length ts /\
  forall i t th, i <> w -> ts !! i = Some t -> callers cf !! i = Some th ->
    th = AtLoad t \/ th = AtCAS t d0 \/ th = Returned t false.

Definition race_inv (d0 : Z) (ts : list Z) (cf : config) : Prop :=
  racing d0 ts cf \/ exists w tw, settled d0 ts w tw cf.

(** How many steps a caller may still take, before and after the first
    store. *)
Definition steps_left (is_settled : bool) (th : caller) : nat :=
  match th with
  | AtLoad _ => if is_settled then 1 else 3
  | AtCAS _ _ => 2
  | Returned _ _ => 0
  end.

Fixpoint total (f : caller -> nat) (l : list caller) : nat :=
  match l with
  | [] => O
  | th :: l' => (f th + total f l')%nat
  end.

Definition is_settled (cf : config) : bool :=
  match stores cf with [] => false | _ => true end.

Definition potential (cf : config) : nat :=
  total (steps_left (is_settled cf)) (callers cf).

(** The clock readings and the answers of the calls that have returned,
    in log order. *)
Definition returned_clocks (cf : config) : list Z := (fun e => fst (snd e)) <$> returns cf.
Definition returned_answers (cf : config) : list bool := (fun e => snd (snd e)) <$> returns cf.

(** What the proofs need to know of a compare-and-swap in flight: the
    value it loaded let it through. *)
Definition cas_passed (interval : Z) (th : caller) : Prop :=
  match th with
  | AtCAS t d => (Int.sub t d <=? interval) = false
  | _ => True
  end.

(** The calls that have returned answered as if they had been made one
    after the other, in log order, on the cell as seeded; and the cell is
    where those calls would have left it. *)
Definition linearized (interval d0 : Z) (cf : config) : Prop :=
  RateLimit_calls 1 (returned_clocks cf) interval d0
    = Some (returned_answers cf, cell cf) /\
  Forall (cas_passed interval) (callers cf).

(** Every entry of the log of returns is a caller that has returned, with
    the answer it got, and the log has as many entries as there are
    callers that have returned. *)
Definition logged (cf : config) : Prop :=
  Forall (fun e => callers cf !! fst e = Some (Returned (fst (snd e)) (snd (snd e))))
    (returns cf) /\
  length (returns cf) = count returned (callers cf).

(** ** AtomicFlag and AtomicBool

    Both wrap one [uint32] word that is touched only through
    [sync/atomic]; a method is one atomic transformer of the word. *)

Definition SwapUint32 (new : Z) : atomic Z := fun w => (w, new).
Definition LoadUint32 : atomic Z := fun w => (w, w).
Definition StoreUint32 (v : Z) : atomic unit := fun w => (tt, v).

Module AtomicFlag.

(** [[
func (f *AtomicFlag) test_and_set() bool {
	return atomic.SwapUint32(&f.flag, 1) != 0
}
]] *)
Definition test_and_set : atomic bool :=
  fun w => let (old, w) := SwapUint32 1 w in (negb (old =? 0), w).

(** [[
func (f *AtomicFlag) clear() {
	atomic.SwapUint32(&f.flag, 0)
}
]] *)
Definition clear : atomic unit :=
  fun w => let (_, w) := SwapUint32 0 w in (tt, w).

(** The calls made on one flag, by whichever callers, in the order in
    which their swaps take effect. *)
Inductive op : Type := TestAndSet | Clear.

(** The answers of the [test_and_set] calls among [ops], in order, and
    the word they leave. *)
Fixpoint run (ops : list op) : atomic (list bool) :=
  fun w =>
    match ops with
    | [] => ([], w)
    | TestAndSet :: rest =>
        let (b, w) := test_and_set w in
        let (bs, w) := run rest w in (b :: bs, w)
    | Clear :: rest =>
        let (_, w) := clear w in run rest w
    end.

Definition clears (ops : list op) : nat :=
  length (List.filter (fun o => match o with Clear => true | TestAndSet => false end) ops).

(** A [test_and_set] that answers false has found the flag clear: its
    caller holds the lock built on the flag. *)
Definition acquisitions (bs : list bool) : nat :=
  length (List.filter negb bs).

End AtomicFlag.

Module AtomicBool.

(** [[
func (b *AtomicBool) get() bool {
	return atomic.LoadUint32(&b.flag) != 0
}
]] *)
Definition get : atomic bool :=
  fun w => let (v, w) := LoadUint32 w in (negb (v =? 0), w).

(** [[
func (b *AtomicBool) set(value bool) {
	var v uint32 = 0
	if value {
		v = 1
	}
	atomic.StoreUint32(&b.flag, v)
}
]] *)
Definition set (value : bool) : atomic unit :=
  fun w =>
    let v := 0 in
    let v := if value then 1 else v in
    StoreUint32 v w.

(** Successive [set] calls, in the order in which their stores take
    effect. *)
Fixpoint sets (values : list bool) : atomic unit :=
  fun w =>
    match values with
    | [] => (tt, w)
    | value :: rest => let (_, w) := set value w in sets rest w
    end.

End AtomicBool.

(** ** More notions for stating what the code does *)

(** A Unix time as [time.Now().UTC().Unix()] gives it after 1970. *)
Definition unix_time (t : Z) : Prop := 0 <= t <= Int.max_int.

(** The clock readings of the calls that were let through. *)
Fixpoint granted (nows : list Z) (answers : list bool) : list Z :=
  match nows, answers with
  | t :: nows', b :: answers' =>
      if b then t :: granted nows' answers' else granted nows' answers'
  | _, _ => []
  end.

(** Each element of [l] is more than [interval] after the one before it,
    the first one more than [interval] after [prev]. *)
Fixpoint spaced (interval prev : Z) (l : list Z) : Prop :=
  match l with
  | [] => True
  | t :: l' => interval < t - prev /\ spaced interval t l'
  end.

(** The last element of [l], or [prev] when there is none. *)
Fixpoint last_grant (prev : Z) (l : list Z) : Z :=
  match l with
  | [] => prev
  | t :: l' => last_grant t l'
  end.

(** No element of [l] is smaller than an earlier one. *)
Fixpoint ascending (l : list Z) : Prop :=
  match l with
  | [] => True
  | t :: l' => Forall (fun t' => t <= t') l' /\ ascending l'
  end.

(** How many of the timestamps [l] lie within [period] of [curtime]. *)
Fixpoint events_within (period curtime : Z) (l : list Z) : nat :=
  match l with
  | [] => O
  | t :: l' =>
      ((if (curtime - t <=? period)%Z then 1 else 0)
       + events_within period curtime l')%nat
  end.

(** The callers that have not returned yet. *)
Definition unreturned (l : list caller) : nat :=
  count (fun th => negb (returned th)) l.

(** A bound on the steps a caller can still take when [u] callers have
    not returned and the cell holds [c]: a compare-and-swap that will
    fail costs a retry, and only a store by one of the [u] callers can
    make one fail. *)
Definition retry_weight (u : nat) (c : Z) (th : caller) : nat :=
  match th with
  | AtLoad _ => (2 * u + 1)%nat
  | AtCAS _ d => if c =? d then (2 * u)%nat else (2 * u + 2)%nat
  | Returned _ _ => O
  end.

Definition retry_potential (cf : config) : nat :=
  total (retry_weight (unreturned (callers cf)) (cell cf)) (callers cf).

(** * Machine arithmetic *)

(** Bounds of int64 made explicit for [lia]. *)
Ltac range_lia :=
  unfold Int.in_range, Int.min_int, Int.max_int in *; lia.

(** Usability of a concrete instance, by evaluation. *)
Ltac wf_compute := vm_compute; intuition discriminate.

Lemma wrap_in_range x : Int.in_range x -> Int.wrap x = x.
Proof.
  unfold Int.in_range, Int.wrap, Int.min_int, Int.max_int, Int.modulus.
  intros H. rewrite Z.mod_small; lia.
Qed.

Lemma wrap_range x : Int.in_range (Int.wrap x).
Proof.
  unfold Int.in_range, Int.wrap, Int.min_int, Int.max_int, Int.modulus.
  pose proof (Z.mod_pos_bound (x - - 2 ^ 63) (2 ^ 64)). lia.
Qed.

Lemma sub_diag x : Int.sub x x = 0.
Proof. unfold Int.sub. rewrite Z.sub_diag. reflexivity. Qed.

Lemma sub_exact x y : Int.in_range (x - y) -> Int.sub x y = x - y.
Proof. apply wrap_in_range. Qed.

Lemma add_exact x y : Int.in_range (x + y) -> Int.add x y = x + y.
Proof. apply wrap_in_range. Qed.

(** The truncated remainder against the floored one, for a positive
    modulus. *)
Lemma rem_mod x m :
  0 < m ->
  x `rem` m = if x `rem` m <? 0 then x `mod` m - m else x `mod` m.
Proof.
  intros Hm.
  pose proof (Z.quot_rem' x m) as Hq.
  destruct (Z.ltb_spec (x `rem` m) 0) as [Hneg | Hpos].
  - assert (x < 0) as Hx.
    { destruct (Z.lt_ge_cases x 0) as [? | Hx]; [done |].
      pose proof (Z.rem_bound_pos x m Hx Hm). lia. }
    pose proof (Z.rem_bound_pos_neg x m Hm ltac:(lia)) as Hb.
    enough (x `rem` m + m = x `mod` m) by lia.
    apply (Z.mod_unique_pos x m (x `quot` m - 1)); lia.
  - assert (x `rem` m < m) as Hlt.
    { destruct (Z.lt_ge_cases x 0) as [Hx | Hx].
      - pose proof (Z.rem_bound_pos_neg x m Hm ltac:(lia)). lia.
      - pose proof (Z.rem_bound_pos x m Hx Hm). lia. }
    apply (Z.mod_unique_pos x m (x `quot` m)); lia.
Qed.

(** [realmod] is the floored modulus for every modulus a slice length can
    be. *)
Lemma realmod_mod x m :
  0 < m <= Int.max_int -> realmod x m = Ok (x `mod` m).
Proof.
  intros [Hm Hmax]. unfold realmod, go_rem.
  destruct (Z.eqb_spec m 0) as [-> | _]; [lia |].
  f_equal. pose proof (rem_mod x m Hm) as Hr.
  pose proof (Z.mod_pos_bound x m Hm) as Hb.
  destruct (Z.ltb_spec (x `rem` m) 0) as [Hneg | Hpos]; [| done].
  rewrite Hr. replace (x `mod` m - m + m) with (x `mod` m) by lia.
  unfold Int.add. replace (x `mod` m - m + m) with (x `mod` m) by lia.
  apply wrap_in_range. range_lia.
Qed.

Lemma realmod_zero x : realmod x 0 = Panic DivideByZero.
Proof. reflexivity. Qed.

Lemma realmod_bounds x m r :
  0 < m <= Int.max_int -> realmod x m = Ok r -> 0 <= r < m.
Proof.
  intros Hm. rewrite realmod_mod by done. intros [= <-].
  apply Z.mod_pos_bound. lia.
Qed.

(** * The ring of slots *)

Lemma slot_back_mod C i : 0 <= i < C -> slot_back C i = (i - 1) `mod` C.
Proof.
  intros Hi. unfold slot_back. destruct (Z.eqb_spec i 0) as [-> | Hne].
  - apply (Z.mod_unique_pos _ C (-1)); lia.
  - rewrite Z.mod_small; lia.
Qed.

Lemma slot_on_mod C i : 0 <= i < C -> slot_on C i = (i + 1) `mod` C.
Proof.
  intros Hi. unfold slot_on. destruct (Z.eqb_spec i (C - 1)) as [-> | Hne].
  - apply (Z.mod_unique_pos _ C 1); lia.
  - rewrite Z.mod_small; lia.
Qed.

Lemma iter_slot_back C i p :
  0 <= i < C -> Pos.iter (slot_back C) i p = (i - Z.pos p) `mod` C.
Proof.
  intros Hi. induction p as [| p IH] using Pos.peano_ind.
  - simpl. by apply slot_back_mod.
  - rewrite Pos.iter_succ, IH, slot_back_mod by (apply Z.mod_pos_bound; lia).
    rewrite Zminus_mod_idemp_l. f_equal. lia.
Qed.

Lemma iter_slot_on C i p :
  0 <= i < C -> Pos.iter (slot_on C) i p = (i + Z.pos p) `mod` C.
Proof.
  intros Hi. induction p as [| p IH] using Pos.peano_ind.
  - simpl. by apply slot_on_mod.
  - rewrite Pos.iter_succ, IH, slot_on_mod by (apply Z.mod_pos_bound; lia).
    rewrite Zplus_mod_idemp_l. f_equal. lia.
Qed.

(** Walking [k] slots back from [i] lands on [(i - k) mod C]. *)
Lemma slots_behind_mod C i k :
  0 <= i < C -> slots_behind C i k = (i - k) `mod` C.
Proof.
  intros Hi. destruct k as [| p | p]; simpl.
  - rewrite Z.sub_0_r, Z.mod_small; lia.
  - by apply iter_slot_back.
  - rewrite iter_slot_on by done. f_equal.
Qed.

Lemma behind_mod s k :
  wf s -> behind s k = (index s - k) `mod` len (times s).
Proof. intros [_ Hi]. by apply slots_behind_mod. Qed.

Lemma behind_bounds s k : wf s -> 0 <= behind s k < len (times s).
Proof.
  intros Hwf. rewrite behind_mod by done.
  apply Z.mod_pos_bound. destruct Hwf; lia.
Qed.

Lemma behind_0 s : behind s 0 = index s.
Proof. reflexivity. Qed.

(** * Reading and writing slots *)

Lemma slice_get_lookup l i :
  0 <= i < len l -> exists v, slice_get l i = Ok v /\ l !! Z.to_nat i = Some v.
Proof.
  intros Hi. unfold slice_get.
  destruct (Z.leb_spec 0 i); [| lia]. destruct (Z.ltb_spec i (len l)); [| lia].
  simpl. destruct (l !! Z.to_nat i) as [v |] eqn:Hl; [by exists v |].
  apply lookup_ge_None in Hl. unfold len in *. lia.
Qed.

Lemma slice_get_Some l i v :
  0 <= i -> l !! Z.to_nat i = Some v -> slice_get l i = Ok v.
Proof.
  intros Hi Hl. unfold slice_get.
  pose proof (lookup_lt_Some _ _ _ Hl) as Hlt.
  destruct (Z.leb_spec 0 i); [| lia].
  destruct (Z.ltb_spec i (len l)); [| unfold len in *; lia].
  simpl. by rewrite Hl.
Qed.

Lemma slice_get_oob l i : len l <= i -> slice_get l i = Panic (IndexOutOfRange i (len l)).
Proof.
  intros Hi. unfold slice_get.
  destruct (Z.ltb_spec i (len l)); [lia |]. by rewrite andb_false_r.
Qed.

Lemma slice_set_ok l i v :
  0 <= i < len l -> slice_set l i v = Ok (<[Z.to_nat i := v]> l).
Proof.
  intros Hi. unfold slice_set.
  destruct (Z.leb_spec 0 i); [| lia]. by destruct (Z.ltb_spec i (len l)); [| lia].
Qed.

Lemma len_insert l i v : len (<[i := v]> l) = len l.
Proof. unfold len. by rewrite length_insert. Qed.

(** * The methods on a usable instance *)

Lemma index_succ_exact s : wf s -> Int.add (index s) 1 = index s + 1.
Proof.
  intros [[_ Hmax] Hi]. apply add_exact.
  range_lia.
Qed.

Lemma append_eq t s :
  wf s ->
  append t s =
    (Ok tt,
     mkSaturationLimit
       (<[Z.to_nat ((index s + 1) `mod` len (times s)) := t]> (times s))
       ((index s + 1) `mod` len (times s))).
Proof.
  intros Hwf. pose proof Hwf as [Hlen Hidx].
  unfold append, bind, get_index, get_times, lift, set_index, set_times.
  rewrite index_succ_exact, realmod_mod by done. simpl.
  rewrite slice_set_ok; [done |]. apply Z.mod_pos_bound. lia.
Qed.

Lemma append_wf t s : wf s -> wf (after (append t) s).
Proof.
  intros Hwf. unfold after. rewrite append_eq by done. simpl.
  destruct Hwf as [Hlen Hidx]. unfold wf. simpl. rewrite !len_insert.
  split; [done |]. apply Z.mod_pos_bound. lia.
Qed.

Lemma append_len t s : wf s -> len (times (after (append t) s)) = len (times s).
Proof.
  intros Hwf. unfold after. rewrite append_eq by done. simpl. apply len_insert.
Qed.

Lemma check_slot_eq num s :
  wf s ->
  check_slot num s =
    (Ok (Int.sub (index s) (Int.sub num 1) `mod` len (times s)), s).
Proof.
  intros [Hlen _]. unfold check_slot, bind, get_index, get_times, lift.
  by rewrite realmod_mod.
Qed.

Lemma checkafter_slot_eq num s :
  wf s ->
  checkafter_slot num s = (Ok (Int.sub (index s) num `mod` len (times s)), s).
Proof.
  intros [Hlen _]. unfold checkafter_slot, bind, get_index, get_times, lift.
  by rewrite realmod_mod.
Qed.

(** * What the ring holds after a sequence of appends *)

Lemma appends_cons t l s :
  wf s -> appends (t :: l) s = appends l (after (append t) s).
Proof.
  intros Hwf. unfold after. simpl. unfold bind.
  by rewrite append_eq.
Qed.

Lemma appends_ok l s :
  wf s ->
  result (appends l) s = Ok tt /\
  wf (after (appends l) s) /\
  len (times (after (appends l) s)) = len (times s).
Proof.
  revert s. induction l as [| t l IH]; intros s Hwf.
  - done.
  - unfold result, after in *. rewrite appends_cons by done.
    destruct (IH (after (append t) s)) as (Hr & Hw & Hl); [by apply append_wf |].
    rewrite Hr, Hl, append_len by done. done.
Qed.

Lemma appends_snoc l t s :
  wf s -> appends (l ++ [t]) s = append t (after (appends l) s).
Proof.
  revert s. induction l as [| a l IH]; intros s Hwf.
  - simpl. unfold bind, after, ret. simpl. by rewrite append_eq.
  - rewrite <- app_comm_cons, !appends_cons by done.
    rewrite IH by (by apply append_wf).
    unfold after at 1 3. by rewrite appends_cons.
Qed.

(** The slot under the cursor holds what was appended last. *)
Lemma append_read_0 t s :
  wf s ->
  let s' := after (append t) s in
  slice_get (times s') (behind s' 0) = Ok t.
Proof.
  intros Hwf s'. subst s'. unfold after. rewrite behind_0, append_eq by done.
  simpl. pose proof Hwf as [Hlen Hidx].
  pose proof (Z.mod_pos_bound (index s + 1) (len (times s)) ltac:(lia)) as Hb.
  apply slice_get_Some; [lia |].
  apply list_lookup_insert_eq. unfold len in *. lia.
Qed.

(** An append moves every other slot one further behind the cursor. *)
Lemma append_read_S t s k :
  wf s -> 0 <= k -> k + 1 < len (times s) ->
  let s' := after (append t) s in
  slice_get (times s') (behind s' (k + 1)) = slice_get (times s) (behind s k).
Proof.
  intros Hwf Hk HkC s'.
  pose proof (append_wf t s Hwf) as Hwf'. fold s' in Hwf'.
  rewrite !behind_mod by done. subst s'. unfold after.
  rewrite append_eq by done. simpl. rewrite len_insert.
  pose proof Hwf as [Hlen Hidx]. set (C := len (times s)) in *.
  rewrite Zminus_mod_idemp_l.
  replace (index s + 1 - (k + 1)) with (index s - k) by lia.
  pose proof (Z.mod_pos_bound (index s - k) C ltac:(lia)) as Hb.
  pose proof (Z.mod_pos_bound (index s + 1) C ltac:(lia)) as Hb1.
  assert ((index s + 1) `mod` C <> (index s - k) `mod` C) as Hne.
  { intros Heq.
    assert ((k + 1) `mod` C = 0) as H0.
    { replace (k + 1) with ((index s + 1) - (index s - k)) by lia.
      rewrite Zminus_mod, Heq, Z.sub_diag. by apply Z.mod_0_l; lia. }
    rewrite Z.mod_small in H0; lia. }
  unfold slice_get. rewrite len_insert. fold C.
  destruct ((0 <=? (index s - k) `mod` C) && ((index s - k) `mod` C <? C)); [| done].
  rewrite list_lookup_insert_ne; [done | lia].
Qed.

(** After appending [l], the [k]-th most recent timestamp sits [k] slots
    behind the cursor, as long as the ring has more than [k] slots. *)
Lemma appends_recent l s k v :
  wf s ->
  recent l k = Some v ->
  Z.of_nat k < len (times s) ->
  let s' := after (appends l) s in
  slice_get (times s') (behind s' (Z.of_nat k)) = Ok v.
Proof.
  intros Hwf. revert k v. induction l as [| t l IH] using rev_ind; intros k v.
  - unfold recent. simpl. by rewrite lookup_nil.
  - unfold recent. rewrite rev_unit. intros Hr HkC.
    destruct (appends_ok l s Hwf) as (_ & Hwf' & Hlen').
    assert (after (appends (l ++ [t])) s = after (append t) (after (appends l) s))
      as -> by (unfold after at 1; by rewrite appends_snoc).
    set (s1 := after (appends l) s) in *.
    destruct k as [| k]; simpl in Hr.
    + injection Hr as <-. by apply append_read_0.
    + replace (Z.of_nat (S k)) with (Z.of_nat k + 1) by lia.
      rewrite (append_read_S t s1 (Z.of_nat k) Hwf') by lia.
      apply IH; [done | lia].
Qed.

(** * Which slot the checks read *)

Lemma check_read_eq num s :
  wf s ->
  exists v,
    slice_get (times s)
      (Int.sub (index s) (Int.sub num 1) `mod` len (times s)) = Ok v /\
    check_read num s = (Ok v, s).
Proof.
  intros Hwf. pose proof Hwf as [Hlen _].
  set (i := Int.sub (index s) (Int.sub num 1) `mod` len (times s)).
  destruct (slice_get_lookup (times s) i) as (v & Hv & _).
  { apply Z.mod_pos_bound. lia. }
  exists v. split; [done |].
  unfold check_read, bind. rewrite check_slot_eq by done.
  unfold get_times, lift. fold i. by rewrite Hv.
Qed.

Lemma check_of_read num period curtime s v :
  check_read num s = (Ok v, s) ->
  check num period curtime s = (Ok (Int.sub curtime v <=? period), s).
Proof. intros Hr. unfold check, bind. by rewrite Hr. Qed.

Lemma checkafter_eq num period s :
  wf s ->
  exists cur old,
    slice_get (times s) (index s) = Ok cur /\
    slice_get (times s) (Int.sub (index s) num `mod` len (times s)) = Ok old /\
    checkafter_read num s = (Ok old, s) /\
    checkafter num period s = (Ok (Int.sub cur old <=? period), s).
Proof.
  intros Hwf. pose proof Hwf as [Hlen Hidx].
  set (i := Int.sub (index s) num `mod` len (times s)).
  destruct (slice_get_lookup (times s) (index s) Hidx) as (cur & Hcur & _).
  destruct (slice_get_lookup (times s) i) as (old & Hold & _).
  { apply Z.mod_pos_bound. lia. }
  exists cur, old. repeat split; [done | done | |].
  - unfold checkafter_read, bind. rewrite checkafter_slot_eq by done.
    unfold get_times, lift. fold i. by rewrite Hold.
  - unfold checkafter, bind. rewrite checkafter_slot_eq by done.
    unfold get_times, get_index, lift, ret. fold i. by rewrite Hcur, Hold.
Qed.

(** For a lookback inside the ring the subtractions do not wrap. *)
Lemma lookback_exact s num :
  wf s -> 0 <= num < len (times s) ->
  Int.sub (index s) (Int.sub num 1) = index s - (num - 1) /\
  Int.sub (index s) num = index s - num.
Proof.
  intros [[_ Hmax] Hidx] Hnum.
  assert (Int.sub num 1 = num - 1) as ->.
  { apply sub_exact. range_lia. }
  split; apply sub_exact; range_lia.
Qed.

Lemma check_slot_behind num s :
  wf s -> 0 <= num < len (times s) ->
  check_slot num s = (Ok (behind s (num - 1)), s).
Proof.
  intros Hwf Hnum. rewrite check_slot_eq, behind_mod by done.
  by destruct (lookback_exact s num Hwf Hnum) as [-> _].
Qed.

Lemma checkafter_slot_behind num s :
  wf s -> 0 <= num < len (times s) ->
  checkafter_slot num s = (Ok (behind s num), s).
Proof.
  intros Hwf Hnum. rewrite checkafter_slot_eq, behind_mod by done.
  by destruct (lookback_exact s num Hwf Hnum) as [_ ->].
Qed.

(** [check(num, ...)] after the appends [l] reads the [num]-th most recent
    timestamp, counting the last one appended as the first. *)
Lemma check_read_recent l s num v :
  wf s -> 1 <= num <= len (times s) ->
  recent l (Z.to_nat (num - 1)) = Some v ->
  check_read num (after (appends l) s) = (Ok v, after (appends l) s).
Proof.
  intros Hwf Hnum Hrec.
  destruct (appends_ok l s Hwf) as (_ & Hwf' & Hlen').
  pose proof (appends_recent l s _ v Hwf Hrec) as Hget.
  rewrite Z2Nat.id in Hget by lia. cbv zeta in Hget.
  set (s' := after (appends l) s) in *.
  destruct (check_read_eq num s' Hwf') as (v' & Hv' & Hread).
  rewrite Hread. f_equal. rewrite <- Hget by lia. rewrite <- Hv'.
  f_equal. rewrite behind_mod by done. f_equal.
  pose proof Hwf' as [[_ Hmax] Hidx].
  assert (Int.sub num 1 = num - 1) as ->.
  { apply sub_exact. range_lia. }
  apply sub_exact. range_lia.
Qed.

(** [checkafter(num, ...)] after the appends [l] compares the last
    timestamp appended with the one appended [num] appends before it. *)
Lemma checkafter_recent l s num period cur old :
  wf s -> 0 <= num < len (times s) ->
  recent l 0 = Some cur ->
  recent l (Z.to_nat num) = Some old ->
  checkafter num period (after (appends l) s) =
    (Ok (Int.sub cur old <=? period), after (appends l) s).
Proof.
  intros Hwf Hnum Hcur Hold.
  destruct (appends_ok l s Hwf) as (_ & Hwf' & Hlen').
  pose proof (appends_recent l s _ cur Hwf Hcur) as Hgc.
  pose proof (appends_recent l s _ old Hwf Hold) as Hgo.
  rewrite Z2Nat.id in Hgo by lia. cbv zeta in Hgc, Hgo.
  change (Z.of_nat 0) with 0 in Hgc.
  set (s' := after (appends l) s) in *.
  destruct (checkafter_eq num period s' Hwf') as (c & o & Hc & Ho & _ & Hch).
  rewrite Hch. rewrite behind_0 in Hgc. rewrite Hgc in Hc by lia.
  destruct (lookback_exact s' num Hwf' ltac:(lia)) as [_ Hex].
  rewrite Hex, <- behind_mod, Hgo in Ho by (done || lia).
  by injection Hc as <-; injection Ho as <-.
Qed.

(** * resize *)

Lemma copy_length dst src : length (copy dst src) = length dst.
Proof.
  unfold copy. rewrite length_app, length_take, length_drop. lia.
Qed.

Lemma make_slice_ok size :
  allocatable size -> make_slice size = Ok (replicate (Z.to_nat size) 0).
Proof.
  intros [Hpos Hmax]. unfold make_slice.
  destruct (Z.ltb_spec size 0); [lia |].
  by destruct (Z.ltb_spec max_alloc (int64_size * size)); [lia |].
Qed.

Lemma make_slice_panic size :
  ~ allocatable size -> make_slice size = Panic MakesliceLenOutOfRange.
Proof.
  intros Hno. unfold make_slice, allocatable in *.
  destruct (Z.ltb_spec size 0); [done |].
  destruct (Z.ltb_spec max_alloc (int64_size * size)); [done | lia].
Qed.

Lemma allocatable_max_int size : allocatable size -> size <= Int.max_int.
Proof.
  unfold allocatable, int64_size, max_alloc, Int.max_int. lia.
Qed.

Lemma resize_eq size s :
  allocatable size ->
  resize size s =
    (Ok tt, mkSaturationLimit (copy (replicate (Z.to_nat size) 0) (times s)) (index s)).
Proof.
  intros Hsize. unfold resize, bind, lift. by rewrite make_slice_ok.
Qed.

(** A length that [make] turns down: [resize] panics and the instance is
    as it was. *)
Lemma resize_panic size s :
  ~ allocatable size -> resize size s = (Panic MakesliceLenOutOfRange, s).
Proof.
  intros Hno. unfold resize, bind, lift. by rewrite make_slice_panic.
Qed.

Lemma resize_len size s :
  allocatable size -> len (times (after (resize size) s)) = size.
Proof.
  intros Hsize. unfold after. rewrite resize_eq by done. simpl.
  unfold len. rewrite copy_length, length_replicate. destruct Hsize. lia.
Qed.

Lemma resize_index size s : index (after (resize size) s) = index s.
Proof.
  unfold after, resize, bind, lift.
  by destruct (make_slice size).
Qed.

Lemma allocatable_0 : allocatable 0.
Proof. unfold allocatable, int64_size, max_alloc. lia. Qed.

Lemma resize_zero s : resize 0 s = (Ok tt, mkSaturationLimit [] (index s)).
Proof.
  rewrite resize_eq by apply allocatable_0.
  unfold copy. simpl. by rewrite drop_nil.
Qed.

(** [resize] keeps the instance usable exactly when the cursor already
    lies inside the new length. *)
Lemma resize_wf_iff size s :
  wf s -> 1 <= size -> allocatable size ->
  wf (after (resize size) s) <-> index s < size.
Proof.
  intros [_ Hidx] Hsize Halloc. unfold wf.
  pose proof (allocatable_max_int size Halloc).
  rewrite resize_len, resize_index by done. lia.
Qed.

(** * The claims about SaturationLimit *)

(** C1, as the specification states it, fails: on a ring of two slots
    holding the appended timestamps 10 and 100, [checkafter(0, 5)] answers
    true although the two most recent timestamps differ by 90. *)
Lemma checkafter_0_ignores_previous :
  let s := after (appends [10; 100]) (mkSaturationLimit [0; 0] 0) in
  recent [10; 100] 0 = Some 100 /\
  recent [10; 100] 1 = Some 10 /\
  ~ (result (checkafter 0 5) s = Ok true <-> 100 - 10 <= 5).
Proof.
  vm_compute. split; [done |]. split; [done |].
  intros [H _]. specialize (H eq_refl). by apply H.
Qed.

(** C1, amended: on every usable SaturationLimit and after every sequence
    of appends, [checkafter(0, period)] compares the timestamp under the
    cursor with itself and answers true iff [0 <= period]; with at least
    two slots and at least two appended timestamps it is
    [checkafter(1, period)] that answers true iff the int64 difference
    of the last appended timestamp and the one before it is at most
    [period]. *)
Theorem checkafter_0_and_1 (s : SaturationLimit) (l : list Z) (period a b : Z) :
  wf s ->
  result (checkafter 0 period) (after (appends l) s) = Ok (0 <=? period) /\
  (2 <= len (times s) ->
   recent l 0 = Some b -> recent l 1 = Some a ->
   result (checkafter 1 period) (after (appends l) s)
     = Ok (Int.sub b a <=? period)).
Proof.
  intros Hwf. destruct (appends_ok l s Hwf) as (_ & Hwf' & Hlen'). split.
  - destruct (checkafter_eq 0 period _ Hwf') as (cur & old & Hc & Ho & _ & Hch).
    unfold result. rewrite Hch. simpl.
    destruct (lookback_exact _ 0 Hwf') as [_ Hex]; [destruct Hwf'; lia |].
    rewrite Hex, Z.sub_0_r, Z.mod_small, Hc in Ho by (destruct Hwf'; lia).
    injection Ho as <-. by rewrite sub_diag.
  - intros HC Hb Ha. unfold result.
    by rewrite (checkafter_recent l s 1 period b a) by (done || lia).
Qed.

Lemma checkafter_0_and_1_witness :
  wf (mkSaturationLimit [0; 0] 0) /\
  result (checkafter 0 5) (after (appends [10; 100]) (mkSaturationLimit [0; 0] 0))
    = Ok true /\
  result (checkafter 1 5) (after (appends [10; 100]) (mkSaturationLimit [0; 0] 0))
    = Ok false.
Proof.
  assert (wf (mkSaturationLimit [0; 0] 0)) as Hwf by wf_compute.
  split; [exact Hwf |].
  destruct (checkafter_0_and_1 (mkSaturationLimit [0; 0] 0) [10; 100] 5 10 100 Hwf)
    as [H0 H1].
  split; [exact H0 |].
  apply H1; [vm_compute; discriminate | reflexivity | reflexivity].
Defined.

(** C2 fails on the code: [resize] assigns [times] only and leaves [index]
    as it was.  Shrinking the five-slot ring whose cursor is on slot 4 to
    two slots succeeds and leaves the cursor on slot 4 of a two-slot
    sequence; the [checkafter] that follows indexes [times] with it and
    panics. *)
Theorem resize_leaves_cursor_out_of_bounds :
  let s := mkSaturationLimit [10; 20; 30; 40; 50] 4 in
  wf s /\
  resize 2 s = (Ok tt, mkSaturationLimit [10; 20] 4) /\
  ~ wf (after (resize 2) s) /\
  result (checkafter 0 0) (after (resize 2) s) = Panic (IndexOutOfRange 4 2).
Proof.
  split; [wf_compute |].
  split; [reflexivity |]. split; [| reflexivity].
  intros [_ [_ H]]. vm_compute in H. discriminate.
Qed.

(** C3, as the specification states it, fails: [resize(0)] is not
    rejected; it succeeds and leaves an empty sequence, and the next
    [append] divides by zero in [realmod]. *)
Lemma resize_zero_is_accepted :
  let s := mkSaturationLimit [0; 0; 0; 0; 0] 0 in
  wf s /\
  resize 0 s = (Ok tt, mkSaturationLimit [] 0) /\
  result (append 7) (after (resize 0) s) = Panic DivideByZero.
Proof.
  split; [wf_compute |]. split; reflexivity.
Qed.

(** C3, amended: [resize] validates nothing itself.  A negative size
    panics inside [make] and leaves the instance as it was; size 0
    succeeds and leaves an empty sequence, on which every later [append],
    [check] and [checkafter] panics with an integer division by zero. *)
Theorem resize_nonpositive (s : SaturationLimit) (size : Z) :
  (size < 0 -> resize size s = (Panic MakesliceLenOutOfRange, s)) /\
  (size = 0 ->
   result (resize size) s = Ok tt /\
   times (after (resize size) s) = [] /\
   forall t num period curtime,
     result (append t) (after (resize size) s) = Panic DivideByZero /\
     result (check num period curtime) (after (resize size) s) = Panic DivideByZero /\
     result (checkafter num period) (after (resize size) s) = Panic DivideByZero).
Proof.
  split.
  - intros Hneg. apply resize_panic. unfold allocatable. lia.
  - intros ->. unfold result, after. rewrite resize_zero. simpl.
    by repeat split.
Qed.

Lemma resize_nonpositive_witness :
  resize (-3) (mkSaturationLimit [1; 2; 3] 1)
    = (Panic MakesliceLenOutOfRange, mkSaturationLimit [1; 2; 3] 1) /\
  result (check 1 60 100) (after (resize 0) (mkSaturationLimit [1; 2; 3] 1))
    = Panic DivideByZero.
Proof.
  split.
  - apply (proj1 (resize_nonpositive (mkSaturationLimit [1; 2; 3] 1) (-3))). lia.
  - apply (proj2 (resize_nonpositive (mkSaturationLimit [1; 2; 3] 1) 0) eq_refl).
    exact 0.
Defined.

(** C5: for [0 <= num < C], [check] reads the timestamp [num - 1] slots
    behind the cursor and [checkafter] the one [num] slots behind it,
    walking the ring backwards with the wrap at the boundary; the slot
    computed is never negative (and never beyond the last slot). *)
Theorem checks_read_behind_cursor
    (s : SaturationLimit) (num period curtime : Z) :
  wf s -> 0 <= num < len (times s) ->
  (check_slot num s = (Ok (behind s (num - 1)), s) /\
   0 <= behind s (num - 1) < len (times s) /\
   exists v,
     slice_get (times s) (behind s (num - 1)) = Ok v /\
     check_read num s = (Ok v, s) /\
     check num period curtime s = (Ok (Int.sub curtime v <=? period), s)) /\
  (checkafter_slot num s = (Ok (behind s num), s) /\
   0 <= behind s num < len (times s) /\
   exists cur old,
     slice_get (times s) (index s) = Ok cur /\
     slice_get (times s) (behind s num) = Ok old /\
     checkafter_read num s = (Ok old, s) /\
     checkafter num period s = (Ok (Int.sub cur old <=? period), s)).
Proof.
  intros Hwf Hnum.
  destruct (lookback_exact s num Hwf Hnum) as [Hex1 Hex2]. split.
  - split; [by apply check_slot_behind |]. split; [by apply behind_bounds |].
    destruct (check_read_eq num s Hwf) as (v & Hv & Hread).
    exists v. rewrite behind_mod, <- Hex1 by done.
    repeat split; [done | done |]. by apply check_of_read.
  - split; [by apply checkafter_slot_behind |]. split; [by apply behind_bounds |].
    destruct (checkafter_eq num period s Hwf) as (cur & old & Hc & Ho & Hr & Hch).
    exists cur, old. rewrite behind_mod, <- Hex2 by done. by repeat split.
Qed.

Lemma checks_read_behind_cursor_witness :
  check_slot 3 (mkSaturationLimit [50; 10; 20; 30; 40] 0)
    = (Ok 3, mkSaturationLimit [50; 10; 20; 30; 40] 0) /\
  checkafter_slot 3 (mkSaturationLimit [50; 10; 20; 30; 40] 0)
    = (Ok 2, mkSaturationLimit [50; 10; 20; 30; 40] 0).
Proof.
  assert (wf (mkSaturationLimit [50; 10; 20; 30; 40] 0)) as Hwf
    by wf_compute.
  destruct (checks_read_behind_cursor (mkSaturationLimit [50; 10; 20; 30; 40] 0)
              3 25 55 Hwf) as [[H1 _] [H2 _]].
  { wf_compute. }
  split; [exact H1 | exact H2].
Defined.

(** C6, as the specification states it, fails: after 10, 20, 30, 40, 50
    on five slots, [check(2, 25, 55)] reads the slot holding 40, not 30,
    and [check(4, 25, 55)] the slot holding 20, not 10. *)
Lemma example_reads_other_slots :
  let s := after (appends [10; 20; 30; 40; 50]) (mkSaturationLimit [0; 0; 0; 0; 0] 0) in
  result (check_read 2) s = Ok 40 /\
  result (check_read 4) s = Ok 20 /\
  ~ (result (check_read 2) s = Ok 30 /\ result (check 2 25 55) s = Ok true /\
     result (check_read 4) s = Ok 10 /\ result (check 4 25 55) s = Ok false).
Proof.
  split; [reflexivity |]. split; [reflexivity |].
  intros [H _]. vm_compute in H. discriminate.
Qed.

(** C6, amended: on a SaturationLimit of capacity 5 with 10, 20, 30, 40,
    50 appended in order, [check(2, 25, 55)] reads the slot holding 40
    (one slot behind the cursor) and returns true, since 55-40 = 15 <= 25,
    and [check(4, 25, 55)] reads the slot holding 20 (three slots behind)
    and returns false, since 55-20 = 35 > 25. *)
Theorem check_example (s0 : SaturationLimit) :
  wf s0 -> len (times s0) = 5 ->
  let s := after (appends [10; 20; 30; 40; 50]) s0 in
  result (check_read 2) s = Ok 40 /\
  result (check 2 25 55) s = Ok true /\
  result (check_read 4) s = Ok 20 /\
  result (check 4 25 55) s = Ok false.
Proof.
  intros Hwf Hlen s.
  assert (check_read 2 s = (Ok 40, s)) as H2
    by (apply check_read_recent; [done | lia | reflexivity]).
  assert (check_read 4 s = (Ok 20, s)) as H4
    by (apply check_read_recent; [done | lia | reflexivity]).
  unfold result.
  rewrite (check_of_read 2 25 55 s 40 H2), (check_of_read 4 25 55 s 20 H4).
  by rewrite H2, H4.
Qed.

Lemma check_example_witness :
  result (check 2 25 55)
    (after (appends [10; 20; 30; 40; 50]) (mkSaturationLimit [7; 7; 7; 7; 7] 3))
    = Ok true.
Proof.
  apply (check_example (mkSaturationLimit [7; 7; 7; 7; 7] 3)).
  - wf_compute.
  - reflexivity.
Defined.

(** C9, as the specification states it, fails: with the timestamp 1 in
    the slot read, [curtime] the least int64 and [period] 0, the
    timestamp is greater than [curtime], yet [curtime - 1] wraps around
    to the greatest int64 and [check] returns false. *)
Lemma future_timestamp_wraps :
  let s := mkSaturationLimit [1] 0 in
  let curtime := Int.min_int in
  wf s /\ Int.in_range curtime /\ 0 <= 0 /\
  result (check_read 1) s = Ok 1 /\ curtime < 1 /\
  Int.sub curtime 1 = Int.max_int /\
  result (check 1 0 curtime) s = Ok false.
Proof.
  wf_compute.
Qed.

(** C9, amended: for every [period >= 0], whenever the timestamp read by
    [check] is greater than [curtime] and the difference
    [curtime - timestamp] is representable in int64, the difference is
    negative and [check] returns true. *)
Theorem check_future_timestamp
    (s : SaturationLimit) (num period curtime v : Z) :
  wf s ->
  0 <= period ->
  result (check_read num) s = Ok v ->
  curtime < v ->
  Int.in_range (curtime - v) ->
  Int.sub curtime v < 0 /\ result (check num period curtime) s = Ok true.
Proof.
  intros Hwf Hp Hread Hlt Hrange.
  destruct (check_read_eq num s Hwf) as (v' & _ & Hr).
  unfold result in *. rewrite Hr in Hread. injection Hread as ->.
  rewrite (check_of_read num period curtime s v Hr). simpl.
  rewrite sub_exact by done. split; [lia |].
  f_equal. apply Z.leb_le. lia.
Qed.

Lemma check_future_timestamp_witness :
  result (check 1 60 90) (mkSaturationLimit [100; 20] 0) = Ok true.
Proof.
  apply (check_future_timestamp (mkSaturationLimit [100; 20] 0) 1 60 90 100).
  - wf_compute.
  - lia.
  - reflexivity.
  - lia.
  - wf_compute.
Defined.

(** C10: on a state with [len(times) >= 1] and [0 <= index < len(times)],
    [append], [check] and [checkafter] index [times] only at positions
    inside it, whatever [num], [period], [curtime] and [t] are: every slot
    they compute lies in [0, len(times)), none of them panics, and
    [append] leaves the cursor on a slot. *)
Theorem accesses_in_bounds (s : SaturationLimit) (num period curtime t : Z) :
  wf s ->
  (result (append t) s = Ok tt /\ wf (after (append t) s) /\
   len (times (after (append t) s)) = len (times s)) /\
  (exists i b,
     check_slot num s = (Ok i, s) /\ 0 <= i < len (times s) /\
     check num period curtime s = (Ok b, s)) /\
  (exists i b,
     checkafter_slot num s = (Ok i, s) /\ 0 <= i < len (times s) /\
     0 <= index s < len (times s) /\
     checkafter num period s = (Ok b, s)).
Proof.
  intros Hwf. pose proof Hwf as [Hlen Hidx]. split; [| split].
  - split; [unfold result; by rewrite append_eq |].
    split; [by apply append_wf | by apply append_len].
  - destruct (check_read_eq num s Hwf) as (v & _ & Hr).
    eexists _, _. rewrite check_slot_eq by done.
    split; [done |]. split; [apply Z.mod_pos_bound; lia |].
    by apply check_of_read.
  - destruct (checkafter_eq num period s Hwf) as (cur & old & _ & _ & _ & Hch).
    eexists _, _. rewrite checkafter_slot_eq by done.
    split; [done |]. split; [apply Z.mod_pos_bound; lia |]. done.
Qed.

Lemma accesses_in_bounds_witness :
  result (append 9) (mkSaturationLimit [1; 2; 3] 2) = Ok tt.
Proof.
  apply (accesses_in_bounds (mkSaturationLimit [1; 2; 3] 2)
           Int.min_int 0 0 9).
  wf_compute.
Defined.

(** * The debounce gate, one caller at a time *)

(** Alone on the cell, the loop body runs once: the compare-and-swap
    finds the value just loaded. *)
Lemma RateLimit_once fuel t interval c :
  RateLimit (S fuel) t interval c =
    Some (if Int.sub t c <=? interval then (false, c) else (true, t)).
Proof.
  unfold RateLimit. simpl. unfold CompareAndSwapInt64.
  destruct (Int.sub t c <=? interval); [done |].
  by rewrite Z.eqb_refl.
Qed.

Lemma RateLimit_calls_cons fuel now nows interval c :
  RateLimit_calls (S fuel) (now :: nows) interval c =
    match RateLimit_calls (S fuel) nows interval
            (if Int.sub now c <=? interval then c else now) with
    | None => None
    | Some (bs, c') => Some (negb (Int.sub now c <=? interval) :: bs, c')
    end.
Proof.
  cbn [RateLimit_calls]. rewrite RateLimit_once.
  by destruct (Int.sub now c <=? interval).
Qed.

(** Calls inside the closed window after the last permitted one are all
    turned down and leave the cell alone. *)
Lemma RateLimit_calls_rejected fuel nows interval t0 :
  Forall (fun t => Int.sub t t0 <= interval) nows ->
  RateLimit_calls (S fuel) nows interval t0 =
    Some (replicate (length nows) false, t0).
Proof.
  induction 1 as [| t nows Ht _ IH]; [done |].
  rewrite RateLimit_calls_cons.
  destruct (Z.leb_spec (Int.sub t t0) interval); [| lia].
  by rewrite IH.
Qed.

Lemma RateLimit_calls_app fuel l1 l2 interval c bs1 c1 :
  RateLimit_calls fuel l1 interval c = Some (bs1, c1) ->
  RateLimit_calls fuel (l1 ++ l2) interval c =
    match RateLimit_calls fuel l2 interval c1 with
    | None => None
    | Some (bs2, c2) => Some (bs1 ++ bs2, c2)
    end.
Proof.
  revert c bs1 c1. induction l1 as [| t l1 IH]; intros c bs1 c1 H1.
  - injection H1 as <- <-. simpl.
    by destruct (RateLimit_calls fuel l2 interval c) as [[bs2 c2] |].
  - simpl in *. destruct (RateLimit fuel t interval c) as [[b c'] |]; [| done].
    destruct (RateLimit_calls fuel l1 interval c') as [[bs c''] |] eqn:Hl1; [| done].
    injection H1 as <- <-. rewrite (IH _ _ _ Hl1).
    by destruct (RateLimit_calls fuel l2 interval c'') as [[bs2 c2] |].
Qed.

(** C4, as the specification states it, fails: a cell seeded at the
    least int64 is as far in the past as a cell can be, and at the clock
    reading 1793620829 with interval 5 the mathematical [t - d] exceeds
    the interval; yet the int64 subtraction wraps around to a negative
    difference and the first call returns false and leaves the cell
    alone. *)
Lemma seed_at_min_int64_never_passes :
  let d := Int.min_int in
  let t0 := 1793620829 in
  let I := 5 in
  0 <= I /\ Int.in_range I /\ Int.in_range d /\ Int.in_range t0 /\
  I < t0 - d /\ ~ (t0 - d <= I) /\
  Int.sub t0 d < 0 /\
  RateLimit 1 t0 I d = Some (false, d).
Proof.
  vm_compute. intuition discriminate.
Qed.

(** C4, amended: with [t - d] the int64 difference the code computes
    (with wrap-around), [RateLimit] returns false and leaves the cell
    alone when [t - d <= I], and otherwise returns true and sets the cell
    to [t]; that difference is the mathematical one whenever the
    mathematical one is representable in int64.  Consequently, on a cell
    seeded more than [I] before [t0] with [t0 - d] representable, the
    first call at [t0] returns true, every call at a time [t] with
    [t0 <= t < t0 + I] returns false, and a call at [t0 + I + 1] or later,
    no more than the int64 range after [t0], returns true again. *)
Theorem RateLimit_debounce (fuel : nat) (d I : Z) :
  0 <= I -> Int.in_range I ->
  (forall t,
     (Int.sub t d <= I -> RateLimit (S fuel) t I d = Some (false, d)) /\
     (~ Int.sub t d <= I -> RateLimit (S fuel) t I d = Some (true, t))) /\
  (forall t, Int.in_range (t - d) ->
     (t - d <= I -> RateLimit (S fuel) t I d = Some (false, d)) /\
     (~ t - d <= I -> RateLimit (S fuel) t I d = Some (true, t))) /\
  (forall t0 ts t',
     I < t0 - d <= Int.max_int ->
     Forall (fun t => t0 <= t < t0 + I) ts ->
     t0 + I + 1 <= t' -> t' - t0 <= Int.max_int ->
     RateLimit (S fuel) t0 I d = Some (true, t0) /\
     RateLimit_calls (S fuel) ts I t0 = Some (replicate (length ts) false, t0) /\
     RateLimit (S fuel) t' I t0 = Some (true, t') /\
     RateLimit_calls (S fuel) (t0 :: ts ++ [t']) I d =
       Some (true :: replicate (length ts) false ++ [true], t')).
Proof.
  intros HI HIr.
  assert (forall t,
     (Int.sub t d <= I -> RateLimit (S fuel) t I d = Some (false, d)) /\
     (~ Int.sub t d <= I -> RateLimit (S fuel) t I d = Some (true, t))) as Hgate.
  { intros t. rewrite RateLimit_once.
    by destruct (Z.leb_spec (Int.sub t d) I); split; intros; try lia. }
  split; [exact Hgate |]. split.
  - intros t Hr. rewrite <- (sub_exact t d Hr). apply Hgate.
  - intros t0 ts t' Hseed Hts Ht' Hlate.
    assert (RateLimit (S fuel) t0 I d = Some (true, t0)) as Hfirst.
    { apply Hgate. rewrite sub_exact; [lia |].
      range_lia. }
    assert (RateLimit_calls (S fuel) ts I t0 =
              Some (replicate (length ts) false, t0)) as Hmid.
    { apply RateLimit_calls_rejected. eapply Forall_impl; [exact Hts |].
      intros t Ht. simpl in Ht. rewrite sub_exact; [lia |].
      range_lia. }
    assert (RateLimit (S fuel) t' I t0 = Some (true, t')) as Hlast.
    { rewrite RateLimit_once. rewrite sub_exact.
      - by destruct (Z.leb_spec (t' - t0) I); [lia |].
      - range_lia. }
    repeat split; try done.
    change (RateLimit_calls (S fuel) (t0 :: ts ++ [t']) I d) with
      (match RateLimit (S fuel) t0 I d with
       | None => None
       | Some (b, c') =>
           match RateLimit_calls (S fuel) (ts ++ [t']) I c' with
           | None => None
           | Some (bs, c'') => Some (b :: bs, c'')
           end
       end).
    rewrite Hfirst, (RateLimit_calls_app _ _ _ _ _ _ _ Hmid).
    cbn [RateLimit_calls]. by rewrite Hlast.
Qed.

Lemma RateLimit_debounce_witness :
  RateLimit_calls 1 [1000; 1000; 1003; 1004; 1006] 5 0 =
    Some ([true; false; false; false; true], 1006).
Proof.
  assert (0 <= 5) as H5 by lia.
  assert (Int.in_range 5) as Hr by wf_compute.
  destruct (RateLimit_debounce 0 0 5 H5 Hr) as (_ & _ & Hscenario).
  apply (Hscenario 1000 [1000; 1003; 1004] 1006).
  - wf_compute.
  - repeat constructor; lia.
  - lia.
  - vm_compute. discriminate.
Defined.

(** C7: at one and the same clock reading, [CheckRateLimit] returns true
    iff [RateLimit] would, and [CheckRateLimit] leaves the cell as it
    is. *)
Theorem CheckRateLimit_predicts (fuel : nat) (now interval c : Z) :
  exists b c',
    RateLimit (S fuel) now interval c = Some (b, c') /\
    (fst (CheckRateLimit now interval c) = true <-> b = true) /\
    snd (CheckRateLimit now interval c) = c.
Proof.
  rewrite RateLimit_once. unfold CheckRateLimit, LoadInt64. simpl.
  rewrite Z.gtb_ltb, Z.ltb_antisym.
  destruct (Int.sub now c <=? interval); by eexists _, _.
Qed.

(** * The debounce gate under concurrent callers *)

Lemma count_insert p (l : list caller) i x old :
  l !! i = Some old ->
  (count p (<[i := x]> l) + (if p old then 1 else 0) =
   count p l + (if p x then 1 else 0))%nat.
Proof.
  revert i. induction l as [| y l IH]; intros [| i] Hl; try done; simpl in *.
  - injection Hl as ->. lia.
  - specialize (IH i Hl). lia.
Qed.

Lemma total_insert f (l : list caller) i x old :
  l !! i = Some old ->
  (total f (<[i := x]> l) + f old = total f l + f x)%nat.
Proof.
  revert i. induction l as [| y l IH]; intros [| i] Hl; try done; simpl in *.
  - injection Hl as ->. lia.
  - specialize (IH i Hl). lia.
Qed.

Lemma total_le f g (l : list caller) :
  (forall th, (f th <= g th)%nat) -> (total f l <= total g l)%nat.
Proof.
  intros Hfg. induction l as [| y l IH]; simpl; [lia |].
  specialize (Hfg y). lia.
Qed.

Lemma count_returned (l : list caller) :
  count returned l = (count won l + count lost l)%nat.
Proof.
  induction l as [| [t | t d | t [|]] l IH]; simpl; lia.
Qed.

Lemma count_all p (l : list caller) :
  forallb p l = true -> count p l = length l.
Proof.
  induction l as [| y l IH]; simpl; [done |].
  intros [-> Hl]%andb_prop. rewrite IH by done. lia.
Qed.

Lemma count_one p (l : list caller) w x :
  l !! w = Some x -> p x = true ->
  (forall j y, j <> w -> l !! j = Some y -> p y = false) ->
  count p l = 1%nat.
Proof.
  revert w. induction l as [| y l IH]; intros [| w] Hw Hx Hothers; try done;
    simpl in *.
  - injection Hw as ->. rewrite Hx.
    assert (count p l = 0%nat) as ->; [| done].
    clear IH Hx. induction l as [| z l IHl]; [done |]. simpl.
    rewrite (Hothers 1%nat z) by done.
    apply IHl. intros j y' Hj Hy'. destruct j as [| j]; [done |].
    by apply (Hothers (S (S j)) y').
  - rewrite (Hothers 0%nat y) by done.
    apply (IH w); [done | done |].
    intros j y' Hj Hy'. apply (Hothers (S j) y'); [lia | done].
Qed.

Lemma forallb_lookup p (l : list caller) i x :
  forallb p l = true -> l !! i = Some x -> p x = true.
Proof.
  revert i. induction l as [| y l IH]; intros i; [done |]. simpl.
  intros [Hy Hl]%andb_prop. destruct i as [| i]; simpl.
  - by intros [= <-].
  - by apply IH.
Qed.

Lemma not_all_returned (l : list caller) :
  forallb returned l <> true ->
  exists i th, l !! i = Some th /\ returned th = false.
Proof.
  induction l as [| y l IH]; simpl; [done |].
  destruct (returned y) eqn:Hy.
  - simpl. intros Hl. destruct (IH Hl) as (i & th & Hi & Hth).
    by exists (S i), th.
  - intros _. by exists 0%nat, y.
Qed.

Lemma sched_inv interval i cf cf' :
  sched interval i cf = Some cf' ->
  exists th,
    callers cf !! i = Some th /\ returned th = false /\
    cf' = mkConfig (snd (caller_step interval th (cell cf)))
            (<[i := fst (caller_step interval th (cell cf))]> (callers cf))
            (if won (fst (caller_step interval th (cell cf)))
             then stores cf ++ [(i, snd (caller_step interval th (cell cf)))]
             else stores cf)
            (log_return i (fst (caller_step interval th (cell cf))) (returns cf)).
Proof.
  unfold sched. destruct (callers cf !! i) as [th |]; [| done].
  destruct (returned th) eqn:Hr; [done |].
  destruct (caller_step interval th (cell cf)) as [th' c'] eqn:Hcs.
  intros [= <-]. exists th. by rewrite Hcs.
Qed.

Lemma sched_enabled interval i cf th :
  callers cf !! i = Some th -> returned th = false ->
  exists cf', step interval cf cf'.
Proof.
  intros Hi Hr.
  destruct (sched interval i cf) as [cf' |] eqn:Hs.
  - exists cf'. by apply (step_sched interval i).
  - unfold sched in Hs. rewrite Hi, Hr in Hs.
    by destruct (caller_step interval th (cell cf)).
Qed.

(** A run of a schedule is a sequence of steps. *)
Lemma run_steps interval schedule cf :
  exists n, steps interval n cf (run interval schedule cf).
Proof.
  revert cf. induction schedule as [| i rest IH]; intros cf; simpl.
  - exists 0%nat. constructor.
  - destruct (sched interval i cf) as [cf' |] eqn:Hs; [| apply IH].
    destruct (IH cf') as [n Hn]. exists (S n).
    eapply steps_S; [by apply (step_sched interval i) | done].
Qed.

Lemma total_fresh_callers (l : list Z) :
  total (steps_left false) (AtLoad <$> l) = (3 * length l)%nat.
Proof.
  induction l as [| t l IH]; [done |].
  rewrite fmap_cons. cbn [total steps_left length]. rewrite IH. lia.
Qed.

Section Race.

Variables (interval d0 : Z) (ts : list Z).
Hypothesis Hfresh : fresh_for d0 interval ts.
Hypothesis Hwindow : same_window interval ts.

Lemma fresh_lookup i t : ts !! i = Some t -> interval < Int.sub t d0.
Proof. intros Hi. by apply (Forall_lookup_1 _ _ _ _ Hfresh Hi). Qed.

Lemma window_lookup i j t t' :
  ts !! i = Some t -> ts !! j = Some t' -> Int.sub t t' <= interval.
Proof.
  intros Hi Hj. pose proof (Forall_lookup_1 _ _ _ _ Hwindow Hi) as Ht.
  by apply (Forall_lookup_1 _ _ _ _ Ht Hj).
Qed.

Lemma winner_not_seed w tw : ts !! w = Some tw -> tw <> d0.
Proof.
  intros Hw ->. pose proof (fresh_lookup _ _ Hw) as Hf.
  pose proof (window_lookup _ _ _ _ Hw Hw) as Hs.
  rewrite sub_diag in Hf, Hs. lia.
Qed.

Lemma init_racing : racing d0 ts (init d0 ts).
Proof.
  unfold racing, init. simpl. repeat split; [by rewrite length_fmap |].
  intros i t th Ht. rewrite list_lookup_fmap, Ht. simpl.
  intros [= <-]. by left.
Qed.

Lemma init_potential : potential (init d0 ts) = (3 * length ts)%nat.
Proof.
  unfold potential, init, is_settled. simpl. apply total_fresh_callers.
Qed.

(** Before the first store, a step either moves a caller from its load
    to its compare-and-swap, or makes it the winner. *)
Lemma racing_step cf cf' :
  racing d0 ts cf -> step interval cf cf' ->
  race_inv d0 ts cf' /\ (potential cf' < potential cf)%nat.
Proof.
  intros Hracing Hstep. destruct Hstep as [i cf cf' Hs].
  destruct Hracing as (Hcell & Hst & Hlen & Hall).
  destruct (sched_inv _ _ _ _ Hs) as (th & Hi & Hr & ->). clear Hs.
  destruct (lookup_lt_is_Some_2 ts i) as [t Ht].
  { rewrite <- Hlen. by eapply lookup_lt_Some. }
  pose proof (fresh_lookup _ _ Ht) as Hf.
  unfold potential, is_settled. rewrite Hcell, Hst. simpl.
  destruct (Hall i t th Ht Hi) as [-> | ->]; simpl.
  - (* the load *)
    destruct (Z.leb_spec (Int.sub t d0) interval) as [| _]; [lia |]. simpl.
    split.
    + left. unfold racing. simpl. rewrite length_insert.
      repeat split; [done |]. intros j t' th' Ht' Hj.
      destruct (decide (j = i)) as [-> | Hne].
      * rewrite list_lookup_insert_eq in Hj by (by eapply lookup_lt_Some).
        injection Hj as <-. rewrite Ht in Ht'. injection Ht' as <-. by right.
      * rewrite list_lookup_insert_ne in Hj by done. by eapply Hall.
    + pose proof (total_insert (steps_left false) _ _ (AtCAS t d0) _ Hi) as Htot.
      simpl in Htot. lia.
  - (* the compare-and-swap: the cell still holds the seed *)
    unfold CompareAndSwapInt64. rewrite Z.eqb_refl. simpl. split.
    + right. exists i, t. unfold settled. simpl. rewrite length_insert.
      repeat split; try done.
      * apply list_lookup_insert_eq. by eapply lookup_lt_Some.
      * intros j t' th' Hne Ht' Hj.
        rewrite list_lookup_insert_ne in Hj by done.
        destruct (Hall j t' th' Ht' Hj) as [-> | ->]; auto.
    + pose proof (total_insert (steps_left true) _ _ (Returned t true) _ Hi) as Htot.
      pose proof (total_le (steps_left true) (steps_left false) (callers cf)) as Hle.
      simpl in Htot. 
      assert (total (steps_left true) (callers cf)
              <= total (steps_left false) (callers cf))%nat.
      { apply Hle. intros [| |]; simpl; lia. }
      lia.
Qed.

(** After the first store, a step either sends a stale compare-and-swap
    back to the load, or makes a load return false. *)
Lemma settled_step w tw cf cf' :
  settled d0 ts w tw cf -> step interval cf cf' ->
  settled d0 ts w tw cf' /\ (potential cf' < potential cf)%nat.
Proof.
  intros Hsettled Hstep. destruct Hstep as [i cf cf' Hs].
  destruct Hsettled as (Hw & Hcell & Hst & Hwon & Hlen & Hall).
  destruct (sched_inv _ _ _ _ Hs) as (th & Hi & Hr & ->). clear Hs.
  assert (i <> w) as Hiw.
  { intros ->. rewrite Hwon in Hi. by injection Hi as <-. }
  destruct (lookup_lt_is_Some_2 ts i) as [t Ht].
  { rewrite <- Hlen. by eapply lookup_lt_Some. }
  pose proof (window_lookup _ _ _ _ Ht Hw) as Hin.
  pose proof (winner_not_seed _ _ Hw) as Hseed.
  unfold potential, is_settled. rewrite Hcell, Hst. simpl.
  destruct (Hall i t th Hiw Ht Hi) as [-> | [-> | ->]]; simpl; [| | done].
  - (* the load sees the winner's store *)
    destruct (Z.leb_spec (Int.sub t tw) interval) as [_ |]; [| lia]. simpl.
    split.
    + unfold settled. simpl. rewrite length_insert.
      repeat split; try done.
      * by rewrite list_lookup_insert_ne.
      * intros j t' th' Hne Ht' Hj.
        destruct (decide (j = i)) as [-> | Hji].
        -- rewrite list_lookup_insert_eq in Hj by (by eapply lookup_lt_Some).
           injection Hj as <-. rewrite Ht in Ht'. injection Ht' as <-. auto.
        -- rewrite list_lookup_insert_ne in Hj by done. by eapply Hall.
    + pose proof (total_insert (steps_left true) _ _ (Returned t false) _ Hi) as Htot.
      simpl in Htot. lia.
  - (* the compare-and-swap against the seed fails *)
    unfold CompareAndSwapInt64.
    destruct (Z.eqb_spec tw d0) as [| _]; [done |]. simpl. split.
    + unfold settled. simpl. rewrite length_insert.
      repeat split; try done.
      * by rewrite list_lookup_insert_ne.
      * intros j t' th' Hne Ht' Hj.
        destruct (decide (j = i)) as [-> | Hji].
        -- rewrite list_lookup_insert_eq in Hj by (by eapply lookup_lt_Some).
           injection Hj as <-. rewrite Ht in Ht'. injection Ht' as <-. auto.
        -- rewrite list_lookup_insert_ne in Hj by done. by eapply Hall.
    + pose proof (total_insert (steps_left true) _ _ (AtLoad t) _ Hi) as Htot.
      simpl in Htot. lia.
Qed.

Lemma race_inv_step cf cf' :
  race_inv d0 ts cf -> step interval cf cf' ->
  race_inv d0 ts cf' /\ (potential cf' < potential cf)%nat.
Proof.
  intros [Hr | (w & tw & Hs)] Hstep.
  - by apply racing_step.
  - destruct (settled_step _ _ _ _ Hs Hstep) as [Hs' Hlt].
    split; [right; by exists w, tw | done].
Qed.

Lemma race_inv_steps n cf cf' :
  race_inv d0 ts cf -> steps interval n cf cf' ->
  race_inv d0 ts cf' /\ (n + potential cf' <= potential cf)%nat.
Proof.
  intros Hinv Hsteps. induction Hsteps as [cf | n cf cf1 cf2 H1 _ IH].
  - split; [done | lia].
  - destruct (race_inv_step _ _ Hinv H1) as [Hinv1 Hlt].
    destruct (IH Hinv1) as [Hinv2 Hle]. split; [done | lia].
Qed.

End Race.

(** ** Linearizability

    Every call takes effect at one atomic operation: the load that turns
    it down, or the compare-and-swap that succeeds. *)

Lemma RateLimit_calls_one t interval c :
  RateLimit_calls 1 [t] interval c =
    Some ([negb (Int.sub t c <=? interval)],
          if Int.sub t c <=? interval then c else t).
Proof. by rewrite RateLimit_calls_cons. Qed.

Lemma init_linearized interval d0 ts : linearized interval d0 (init d0 ts).
Proof.
  split; [done |]. unfold init. simpl.
  induction ts as [| t l IH]; constructor; done.
Qed.

Lemma linearized_return interval d0 cf i t b c' :
  RateLimit_calls 1 (returned_clocks cf) interval d0
    = Some (returned_answers cf, cell cf) ->
  RateLimit_calls 1 [t] interval (cell cf) = Some ([b], c') ->
  RateLimit_calls 1 ((fun e => fst (snd e)) <$> (returns cf ++ [(i, (t, b))]))
    interval d0
    = Some ((fun e => snd (snd e)) <$> (returns cf ++ [(i, (t, b))]), c').
Proof.
  intros Hlog Hcall. rewrite !fmap_app. simpl.
  fold (returned_clocks cf) (returned_answers cf).
  by rewrite (RateLimit_calls_app _ _ _ _ _ _ _ Hlog), Hcall.
Qed.

Lemma linearized_step interval d0 cf cf' :
  linearized interval d0 cf -> step interval cf cf' -> linearized interval d0 cf'.
Proof.
  intros Hlin Hstep. destruct Hstep as [i cf cf' Hs].
  destruct Hlin as [Hlog Hcas].
  destruct (sched_inv _ _ _ _ Hs) as (th & Hi & Hr & ->). clear Hs.
  pose proof (Forall_lookup_1 _ _ _ _ Hcas Hi) as Hth.
  unfold linearized, returned_clocks, returned_answers.
  destruct th as [t | t d | t b]; simpl in *; [| | done].
  - (* the load *)
    destruct (Int.sub t (cell cf) <=? interval) eqn:Hle; simpl.
    + split; [| by apply Forall_insert].
      apply linearized_return; [done |].
      by rewrite RateLimit_calls_one, Hle.
    + split; [done |]. by apply Forall_insert.
  - (* the compare-and-swap *)
    unfold CompareAndSwapInt64.
    destruct (Z.eqb_spec (cell cf) d) as [Hd | _]; simpl.
    + split; [| by apply Forall_insert].
      apply linearized_return; [done |].
      by rewrite RateLimit_calls_one, Hd, Hth.
    + split; [done |]. by apply Forall_insert.
Qed.

Lemma linearized_steps interval d0 n cf cf' :
  linearized interval d0 cf -> steps interval n cf cf' ->
  linearized interval d0 cf'.
Proof.
  intros Hlin Hsteps. induction Hsteps as [cf | n cf cf1 cf2 H1 _ IH]; [done |].
  apply IH. by eapply linearized_step.
Qed.

Lemma logged_step interval cf cf' :
  logged cf -> step interval cf cf' -> logged cf'.
Proof.
  intros Hlogged Hstep. destruct Hstep as [i cf cf' Hs].
  destruct Hlogged as [Hall Hlen].
  destruct (sched_inv _ _ _ _ Hs) as (th & Hi & Hr & ->). clear Hs.
  set (th' := fst (caller_step interval th (cell cf))).
  assert (Forall (fun e => <[i := th']> (callers cf) !! fst e
                     = Some (Returned (fst (snd e)) (snd (snd e)))) (returns cf))
    as Hold.
  { eapply Forall_impl; [exact Hall |]. intros [j [t b]] Hj. simpl in *.
    rewrite list_lookup_insert_ne; [done |].
    intros <-. rewrite Hi in Hj. by injection Hj as ->. }
  pose proof (count_insert returned _ _ th' _ Hi) as Hcount.
  rewrite Hr in Hcount. unfold logged. simpl. fold th'.
  destruct th' as [t | t d | t b] eqn:Hth'; simpl in *;
    try (split; [done | lia]).
  split.
  - apply Forall_app. split; [done |]. constructor; [| done]. simpl.
    apply list_lookup_insert_eq. by eapply lookup_lt_Some.
  - rewrite length_app. simpl. lia.
Qed.

Lemma logged_steps interval n cf cf' :
  logged cf -> steps interval n cf cf' -> logged cf'.
Proof.
  intros Hl Hsteps. induction Hsteps as [cf | n cf cf1 cf2 H1 _ IH]; [done |].
  apply IH. by eapply logged_step.
Qed.

Lemma init_logged d0 ts : logged (init d0 ts).
Proof.
  split; [constructor |]. unfold init. simpl.
  induction ts as [| t l IH]; [done |]. by rewrite fmap_cons.
Qed.

(** A caller that is alone takes the steps of [RateLimit_loop]. *)
Lemma lone_caller_agrees interval d t :
  exists b,
    RateLimit 1 t interval d = Some (b, cell (run interval [0; 0]%nat (init d [t]))) /\
    callers (run interval [0; 0]%nat (init d [t])) = [Returned t b].
Proof.
  rewrite RateLimit_once. unfold run, sched, init. simpl.
  destruct (Int.sub t d <=? interval); simpl.
  - by exists false.
  - unfold CompareAndSwapInt64. rewrite Z.eqb_refl. simpl. by exists true.
Qed.



(** * Further properties of realmod and SaturationLimit *)

(** X1: for every modulus a slice length can be, [realmod] returns the
    one representative of [x] in [0, m): it differs from [x] by a multiple
    of [m], and shifting [x] by any multiple of [m] does not change it. *)
Theorem realmod_representative (x m : Z) :
  0 < m <= Int.max_int ->
  exists r,
    realmod x m = Ok r /\ 0 <= r < m /\
    (exists q, x = q * m + r) /\
    (forall k, realmod (x + k * m) m = Ok r) /\
    (forall r' q', 0 <= r' < m -> x = q' * m + r' -> r' = r).
Proof.
  intros Hm. exists (x `mod` m).
  pose proof (Z.mod_pos_bound x m ltac:(lia)) as Hb.
  split; [by apply realmod_mod |]. split; [done |]. split; [| split].
  - exists (x `div` m). pose proof (Z.div_mod x m ltac:(lia)). lia.
  - intros k. rewrite realmod_mod by done. f_equal. apply Z.mod_add. lia.
  - intros r' q' Hr' Hx. apply (Z.mod_unique_pos x m q'); [done | lia].
Qed.

Lemma realmod_representative_witness :
  realmod (-1) 5 = Ok 4 /\ realmod (-6) 5 = Ok 4.
Proof.
  destruct (realmod_representative (-1) 5) as (r & Hr & _ & _ & Hshift & _).
  { wf_compute. }
  assert (r = 4) as -> by (vm_compute in Hr; by injection Hr).
  split; [exact Hr | exact (Hshift (-1))].
Defined.

Lemma check_slot_any_cursor num s :
  0 < len (times s) <= Int.max_int ->
  check_slot num s =
    (Ok (Int.sub (index s) (Int.sub num 1) `mod` len (times s)), s).
Proof.
  intros Hlen. unfold check_slot, bind, get_index, get_times, lift.
  by rewrite realmod_mod.
Qed.

Lemma checkafter_slot_any_cursor num s :
  0 < len (times s) <= Int.max_int ->
  checkafter_slot num s = (Ok (Int.sub (index s) num `mod` len (times s)), s).
Proof.
  intros Hlen. unfold checkafter_slot, bind, get_index, get_times, lift.
  by rewrite realmod_mod.
Qed.

Lemma check_any_cursor num period curtime s :
  0 < len (times s) <= Int.max_int ->
  exists b, check num period curtime s = (Ok b, s).
Proof.
  intros Hlen.
  set (i := Int.sub (index s) (Int.sub num 1) `mod` len (times s)).
  destruct (slice_get_lookup (times s) i) as (v & Hv & _).
  { apply Z.mod_pos_bound. lia. }
  exists (Int.sub curtime v <=? period).
  unfold check, check_read, bind. rewrite check_slot_any_cursor by done.
  unfold get_times, lift, ret. fold i. by rewrite Hv.
Qed.

Lemma append_any_cursor_eq (t : Z) (s : SaturationLimit) :
  0 < len (times s) <= Int.max_int ->
  append t s =
    (Ok tt,
     mkSaturationLimit
       (<[Z.to_nat (Int.add (index s) 1 `mod` len (times s)) := t]> (times s))
       (Int.add (index s) 1 `mod` len (times s))).
Proof.
  intros Hlen.
  assert (0 <= Int.add (index s) 1 `mod` len (times s) < len (times s)) as Hi
    by (apply Z.mod_pos_bound; lia).
  unfold append, bind, get_index, get_times, lift, set_index, set_times.
  rewrite realmod_mod by done. simpl. by rewrite slice_set_ok.
Qed.

(** X2: [append] works from any cursor value, in bounds or not, as long
    as there is a slot: it never panics, puts the cursor on a slot, writes
    [t] there and nowhere else, and keeps the length. *)
Theorem append_from_any_cursor (t : Z) (s : SaturationLimit) :
  0 < len (times s) <= Int.max_int ->
  result (append t) s = Ok tt /\
  wf (after (append t) s) /\
  index (after (append t) s) = Int.add (index s) 1 `mod` len (times s) /\
  len (times (after (append t) s)) = len (times s) /\
  slice_get (times (after (append t) s)) (index (after (append t) s)) = Ok t /\
  (forall j, j <> index (after (append t) s) ->
     slice_get (times (after (append t) s)) j = slice_get (times s) j).
Proof.
  intros Hlen.
  set (i := Int.add (index s) 1 `mod` len (times s)).
  assert (0 <= i < len (times s)) as Hi by (apply Z.mod_pos_bound; lia).
  unfold result, after. rewrite append_any_cursor_eq by done. fold i.
  simpl. rewrite len_insert.
  split; [done |]. split; [| split; [done |]; split; [done |]; split].
  - unfold wf. simpl. by rewrite len_insert.
  - apply slice_get_Some; [lia |]. apply list_lookup_insert_eq.
    unfold len in *. lia.
  - intros j Hj. unfold slice_get. rewrite len_insert.
    destruct (Z.leb_spec 0 j); [| done]. simpl.
    destruct (j <? len (times s)); [| done].
    rewrite list_lookup_insert_ne; [done | lia].
Qed.

Lemma append_from_any_cursor_witness :
  result (append 9) (mkSaturationLimit [10; 20] 4) = Ok tt /\
  wf (after (append 9) (mkSaturationLimit [10; 20] 4)).
Proof.
  destruct (append_from_any_cursor 9 (mkSaturationLimit [10; 20] 4))
    as (Hr & Hwf & _).
  { wf_compute. }
  split; [exact Hr | exact Hwf].
Defined.

Lemma allocatable_cases size : allocatable size \/ ~ allocatable size.
Proof. unfold allocatable. lia. Qed.

(** X3: [resize(size)] with [size >= 1] on an instance with a
    non-negative cursor, in bounds or not.  When [make] accepts the
    length, [resize] succeeds, [append] and [check] work at once and
    [append] brings the cursor back on a slot; [checkafter] works when
    the old cursor lies inside the new length and panics with an index
    out of range when it does not.  When [make] turns the length down
    (more than [maxAlloc] bytes), [resize] panics and leaves the instance
    as it was. *)
Theorem usable_after_resize
    (s : SaturationLimit) (size t num period curtime : Z) :
  0 <= index s -> 1 <= size ->
  let s' := after (resize size) s in
  (allocatable size ->
   result (resize size) s = Ok tt /\
   result (append t) s' = Ok tt /\ wf (after (append t) s') /\
   (exists b, check num period curtime s' = (Ok b, s')) /\
   (index s < size -> exists b, checkafter num period s' = (Ok b, s')) /\
   (size <= index s ->
    checkafter num period s' = (Panic (IndexOutOfRange (index s) size), s'))) /\
  (~ allocatable size ->
   resize size s = (Panic MakesliceLenOutOfRange, s) /\ s' = s).
Proof.
  intros Hidx Hsize s'. split.
  - intros Halloc. pose proof (allocatable_max_int size Halloc) as Hmax.
    assert (len (times s') = size) as Hlen by (by apply resize_len).
    assert (index s' = index s) as Hind by apply resize_index.
    assert (0 < len (times s') <= Int.max_int) as Hlen' by lia.
    assert (result (append t) s' = Ok tt /\ wf (after (append t) s')) as [Hr Hwf].
    { unfold result, after. rewrite append_any_cursor_eq by done. simpl.
      split; [done |]. unfold wf. simpl. rewrite len_insert.
      split; [done |]. apply Z.mod_pos_bound. lia. }
    split; [unfold result; by rewrite resize_eq |].
    split; [done |]. split; [done |].
    split; [by apply check_any_cursor |]. split.
    + intros Hin.
      destruct (checkafter_eq num period s') as (cur & old & _ & _ & _ & Hch).
      { unfold wf. lia. }
      by eexists.
    + intros Hout. unfold checkafter, bind.
      rewrite checkafter_slot_any_cursor by done.
      unfold get_times, get_index, lift. rewrite slice_get_oob by lia.
      by rewrite Hlen, Hind.
  - intros Hno. subst s'. unfold after. by rewrite resize_panic.
Qed.

Lemma usable_after_resize_witness :
  checkafter 1 60 (after (resize 2) (mkSaturationLimit [10; 20; 30; 40; 50] 4))
    = (Panic (IndexOutOfRange 4 2), mkSaturationLimit [10; 20] 4) /\
  result (append 9) (after (resize 2) (mkSaturationLimit [10; 20; 30; 40; 50] 4))
    = Ok tt /\
  resize (2 ^ 45 + 1) (mkSaturationLimit [10; 20; 30; 40; 50] 4)
    = (Panic MakesliceLenOutOfRange, mkSaturationLimit [10; 20; 30; 40; 50] 4).
Proof.
  assert (allocatable 2) as Halloc by wf_compute.
  assert (~ allocatable (2 ^ 45 + 1)) as Hno
    by (unfold allocatable, int64_size, max_alloc; lia).
  destruct (usable_after_resize (mkSaturationLimit [10; 20; 30; 40; 50] 4)
              2 9 1 60 0) as [Hok _].
  { simpl. lia. }
  { lia. }
  destruct (Hok Halloc) as (_ & Happ & _ & _ & _ & Hpanic).
  destruct (usable_after_resize (mkSaturationLimit [10; 20; 30; 40; 50] 4)
              (2 ^ 45 + 1) 9 1 60 0) as [_ Hbig].
  { simpl. lia. }
  { lia. }
  split; [apply Hpanic; simpl; lia |]. split; [exact Happ |].
  exact (proj1 (Hbig Hno)).
Defined.

Lemma copy_make (n : nat) (l : list Z) :
  copy (replicate n 0) l = list.resize n 0 l.
Proof.
  unfold copy. by rewrite length_replicate, drop_replicate, resize_spec.
Qed.

Lemma resize_times size s :
  allocatable size ->
  times (after (resize size) s) = list.resize (Z.to_nat size) 0 (times s).
Proof.
  intros Hsize. unfold after. rewrite resize_eq by done. simpl. apply copy_make.
Qed.

(** X4: what [resize(size)] leaves.  When [make] accepts the length
    (size 0 included), [resize] succeeds, the length is [size], the cursor
    is kept, every timestamp at a position below [min(size, len)] stays
    at its position, and the positions from the old length on hold 0;
    timestamps beyond the new length are dropped.  When [make] turns the
    length down (negative, or more than [maxAlloc] bytes), [resize]
    panics and leaves the instance as it was. *)
Theorem resize_contents (s : SaturationLimit) (size : Z) :
  let s' := after (resize size) s in
  (allocatable size ->
   result (resize size) s = Ok tt /\
   len (times s') = size /\ index s' = index s /\
   forall j, 0 <= j < size ->
     (j < len (times s) -> slice_get (times s') j = slice_get (times s) j) /\
     (len (times s) <= j -> slice_get (times s') j = Ok 0)) /\
  (~ allocatable size ->
   resize size s = (Panic MakesliceLenOutOfRange, s) /\ s' = s).
Proof.
  intros s'. split.
  - intros Halloc.
    assert (len (times s') = size) as Hlen by (by apply resize_len).
    split; [unfold result; by rewrite resize_eq |].
    split; [done |]. split; [apply resize_index |].
    assert (times s' = list.resize (Z.to_nat size) 0 (times s)) as Ht
      by (by apply resize_times).
    intros j Hj. split.
    + intros Hold.
      destruct (slice_get_lookup (times s) j) as (v & -> & Hv); [lia |].
      apply slice_get_Some; [lia |]. rewrite Ht.
      rewrite lookup_resize; [done | lia | unfold len in *; lia].
    + intros Hnew. apply slice_get_Some; [lia |]. rewrite Ht.
      apply lookup_resize_new; [unfold len in *; lia | lia].
  - intros Hno. subst s'. unfold after. by rewrite resize_panic.
Qed.

Lemma resize_contents_witness :
  slice_get (times (after (resize 4) (mkSaturationLimit [10; 20] 1))) 1 = Ok 20 /\
  slice_get (times (after (resize 4) (mkSaturationLimit [10; 20] 1))) 3 = Ok 0 /\
  len (times (after (resize 0) (mkSaturationLimit [10; 20] 1))) = 0 /\
  after (resize (-1)) (mkSaturationLimit [10; 20] 1) = mkSaturationLimit [10; 20] 1.
Proof.
  assert (allocatable 4) as H4 by wf_compute.
  assert (allocatable 0) as H0 by wf_compute.
  assert (~ allocatable (-1)) as Hneg by (unfold allocatable; lia).
  destruct (proj1 (resize_contents (mkSaturationLimit [10; 20] 1) 4) H4)
    as (_ & _ & _ & Hslots).
  destruct (proj1 (resize_contents (mkSaturationLimit [10; 20] 1) 0) H0)
    as (_ & Hlen0 & _).
  destruct (proj2 (resize_contents (mkSaturationLimit [10; 20] 1) (-1)) Hneg)
    as (_ & Hsame).
  split; [| split; [| split; [exact Hlen0 | exact Hsame]]].
  - rewrite (proj1 (Hslots 1 ltac:(lia))); [reflexivity | vm_compute; reflexivity].
  - apply (proj2 (Hslots 3 ltac:(lia))). vm_compute. discriminate.
Defined.

Lemma resize_after size s :
  allocatable size ->
  after (resize size) s =
    mkSaturationLimit (list.resize (Z.to_nat size) 0 (times s)) (index s).
Proof.
  intros Halloc. unfold after. rewrite resize_eq by done. simpl.
  by rewrite copy_make.
Qed.

Lemma resize_same_length s : after (resize (len (times s))) s = s.
Proof.
  destruct (allocatable_cases (len (times s))) as [Halloc | Hno].
  - rewrite resize_after by done.
    unfold len. rewrite Nat2Z.id, resize_all. by destruct s.
  - unfold after. by rewrite resize_panic.
Qed.

(** X5: resizing to the current length changes nothing (and succeeds, the
    current length being one [make] accepts); growing and then shrinking
    back to the old length restores the instance; and a resize to [n]
    after a resize to some [m >= n] leaves what the resize to [n] alone
    leaves. *)
Theorem resize_compose (s : SaturationLimit) (n m : Z) :
  0 <= n <= m ->
  (after (resize (len (times s))) s = s /\
   (allocatable (len (times s)) -> resize (len (times s)) s = (Ok tt, s))) /\
  (n = len (times s) -> after (resize n) (after (resize m) s) = s) /\
  after (resize n) (after (resize m) s) = after (resize n) s.
Proof.
  intros Hnm.
  assert (after (resize n) (after (resize m) s) = after (resize n) s) as Hcomp.
  { destruct (allocatable_cases m) as [Hm | Hm].
    - assert (allocatable n) as Hn by (unfold allocatable, int64_size in *; lia).
      rewrite !resize_after by done. simpl. f_equal. apply resize_resize. lia.
    - f_equal. unfold after. by rewrite resize_panic. }
  split; [split |]; [apply resize_same_length | | split; [| done]].
  - intros Halloc. pose proof (resize_same_length s) as Hsame.
    unfold after in Hsame. rewrite resize_eq in * by done. simpl in Hsame.
    by rewrite Hsame.
  - intros ->. rewrite Hcomp. apply resize_same_length.
Qed.

Lemma resize_compose_witness :
  after (resize 2) (after (resize 5) (mkSaturationLimit [10; 20] 1))
    = mkSaturationLimit [10; 20] 1.
Proof.
  destruct (resize_compose (mkSaturationLimit [10; 20] 1) 2 5) as (_ & Hback & _).
  { lia. }
  apply Hback. reflexivity.
Defined.

Lemma appends_index l s :
  wf s ->
  index (after (appends l) s) =
    (index s + Z.of_nat (length l)) `mod` len (times s).
Proof.
  revert s. induction l as [| t l IH]; intros s Hwf.
  - unfold after. simpl. destruct Hwf as [_ Hidx].
    rewrite Z.add_0_r, Z.mod_small; lia.
  - unfold after. rewrite appends_cons by done. fold (after (appends l) (after (append t) s)).
    rewrite IH by (by apply append_wf). rewrite append_len by done.
    unfold after at 1. rewrite append_eq by done. simpl.
    rewrite Zplus_mod_idemp_l. f_equal. lia.
Qed.

(** Slots further behind the cursor than the appends reach still hold
    what they held before. *)
Lemma appends_read_old l s k :
  wf s ->
  Z.of_nat (length l) <= k < len (times s) ->
  slice_get (times (after (appends l) s)) (behind (after (appends l) s) k) =
    slice_get (times s) (behind s (k - Z.of_nat (length l))).
Proof.
  intros Hwf. revert k. induction l as [| t l IH] using rev_ind; intros k Hk.
  - simpl. by rewrite Z.sub_0_r.
  - destruct (appends_ok l s Hwf) as (_ & Hwf' & Hlen').
    assert (after (appends (l ++ [t])) s = after (append t) (after (appends l) s))
      as -> by (unfold after at 1; by rewrite appends_snoc).
    rewrite length_app in *. simpl in *.
    replace k with ((k - 1) + 1) at 1 by lia.
    rewrite (append_read_S t _ (k - 1) Hwf') by lia.
    rewrite IH by lia. do 2 f_equal. lia.
Qed.

(** X6: what the ring holds after any sequence of appends.  The cursor
    has advanced by their number, modulo the capacity; the slot [k] slots
    behind it holds the [k]-th most recent of the appended timestamps when
    there are that many, and otherwise what it held before the appends. *)
Theorem ring_contents (l : list Z) (s : SaturationLimit) (k : Z) :
  wf s -> 0 <= k < len (times s) ->
  let s' := after (appends l) s in
  result (appends l) s = Ok tt /\
  index s' = (index s + Z.of_nat (length l)) `mod` len (times s) /\
  slice_get (times s') (behind s' k) =
    match recent l (Z.to_nat k) with
    | Some v => Ok v
    | None => slice_get (times s) (behind s (k - Z.of_nat (length l)))
    end.
Proof.
  intros Hwf Hk s'. destruct (appends_ok l s Hwf) as (Hr & _ & _).
  split; [done |]. split; [by apply appends_index |].
  destruct (recent l (Z.to_nat k)) as [v |] eqn:Hrec.
  - pose proof (appends_recent l s _ v Hwf Hrec) as Hget.
    rewrite Z2Nat.id in Hget by lia. apply Hget. lia.
  - apply appends_read_old; [done |].
    unfold recent in Hrec. apply lookup_ge_None in Hrec.
    rewrite length_rev in Hrec. lia.
Qed.

Lemma ring_contents_witness :
  slice_get (times (after (appends [10; 20]) (mkSaturationLimit [1; 2; 3] 0)))
    (behind (after (appends [10; 20]) (mkSaturationLimit [1; 2; 3] 0)) 2) = Ok 1.
Proof.
  destruct (ring_contents [10; 20] (mkSaturationLimit [1; 2; 3] 0) 2)
    as (_ & _ & Hget).
  { wf_compute. }
  { wf_compute. }
  exact Hget.
Defined.

(** X7: after any sequence of appends, [check(num, period, curtime)]
    with [1 <= num <= C] compares [curtime] with the [num]-th most recent
    appended timestamp, and [checkafter(num, period)] with [0 <= num < C]
    compares the last appended timestamp with the one appended [num]
    appends before it; neither changes the instance. *)
Theorem checks_after_appends
    (l : list Z) (s : SaturationLimit) (num period curtime v : Z) :
  wf s ->
  (1 <= num <= len (times s) ->
   recent l (Z.to_nat (num - 1)) = Some v ->
   check num period curtime (after (appends l) s)
     = (Ok (Int.sub curtime v <=? period), after (appends l) s)) /\
  (0 <= num < len (times s) ->
   recent l (Z.to_nat num) = Some v ->
   forall newest, recent l 0 = Some newest ->
   checkafter num period (after (appends l) s)
     = (Ok (Int.sub newest v <=? period), after (appends l) s)).
Proof.
  intros Hwf. split.
  - intros Hnum Hrec. apply check_of_read. by apply check_read_recent.
  - intros Hnum Hrec newest Hnew. by apply checkafter_recent.
Qed.

Lemma checks_after_appends_witness :
  check 3 25 55 (after (appends [10; 20; 30; 40]) (mkSaturationLimit [0; 0; 0] 0))
    = (Ok false, after (appends [10; 20; 30; 40]) (mkSaturationLimit [0; 0; 0] 0)).
Proof.
  apply (proj1 (checks_after_appends [10; 20; 30; 40]
                  (mkSaturationLimit [0; 0; 0] 0) 3 25 55 20 ltac:(wf_compute))).
  - wf_compute.
  - reflexivity.
Defined.

(** X8: a lookback that exceeds the capacity wraps around: [num + C]
    reads the same slot as [num], so [check] and [checkafter] give the
    same answer for both. *)
Theorem lookback_wraps (s : SaturationLimit) (num period curtime : Z) :
  wf s -> 0 <= num -> num + len (times s) <= Int.max_int ->
  check (num + len (times s)) period curtime s = check num period curtime s /\
  checkafter (num + len (times s)) period s = checkafter num period s.
Proof.
  intros Hwf Hnum Hmax. pose proof Hwf as [[Hpos Hlen] Hidx].
  set (C := len (times s)) in *.
  assert (check_slot (num + C) s = check_slot num s) as Hc.
  { rewrite !check_slot_eq by done. fold C. do 2 f_equal.
    rewrite (sub_exact (num + C) 1), (sub_exact num 1) by range_lia.
    rewrite !sub_exact by range_lia.
    replace (index s - (num + C - 1)) with (index s - (num - 1) + (-1) * C) by lia.
    apply Z.mod_add. lia. }
  assert (checkafter_slot (num + C) s = checkafter_slot num s) as Ha.
  { rewrite !checkafter_slot_eq by done. fold C. do 2 f_equal.
    rewrite !sub_exact by range_lia.
    replace (index s - (num + C)) with (index s - num + (-1) * C) by lia.
    apply Z.mod_add. lia. }
  split.
  - unfold check, check_read, bind. by rewrite Hc.
  - unfold checkafter, bind. by rewrite Ha.
Qed.

Lemma lookback_wraps_witness :
  check 7 25 55 (mkSaturationLimit [50; 10; 20; 30; 40] 0)
    = check 2 25 55 (mkSaturationLimit [50; 10; 20; 30; 40] 0).
Proof.
  apply (lookback_wraps (mkSaturationLimit [50; 10; 20; 30; 40] 0) 2 25 55).
  - wf_compute.
  - lia.
  - wf_compute.
Defined.

(** X9: asking before and asking after agree.  For [1 <= num < C],
    [check(num, period, t)] on an instance answers what
    [checkafter(num, period)] answers once [t] has been appended to it. *)
Theorem check_before_checkafter_after
    (s : SaturationLimit) (t num period : Z) :
  wf s -> 1 <= num < len (times s) ->
  result (checkafter num period) (after (append t) s)
    = result (check num period t) s.
Proof.
  intros Hwf Hnum.
  pose proof (append_wf t s Hwf) as Hwf'.
  pose proof (append_len t s Hwf) as Hlen'.
  destruct (checkafter_eq num period _ Hwf') as (cur & old & Hcur & Hold & _ & Hch).
  destruct (check_read_eq num s Hwf) as (v & Hv & Hread).
  unfold result. rewrite Hch, (check_of_read num period t s v Hread). simpl.
  pose proof (append_read_0 t s Hwf) as H0. cbv zeta in H0.
  rewrite behind_0, Hcur in H0. injection H0 as ->.
  destruct (lookback_exact s num Hwf ltac:(lia)) as [Hex _].
  destruct (lookback_exact _ num Hwf' ltac:(lia)) as [_ Hex'].
  rewrite Hex, <- behind_mod in Hv by done.
  rewrite Hex', <- behind_mod in Hold by done.
  pose proof (append_read_S t s (num - 1) Hwf ltac:(lia) ltac:(lia)) as HS.
  cbv zeta in HS. replace (num - 1 + 1) with num in HS by lia.
  rewrite Hold, Hv in HS. by injection HS as ->.
Qed.

Lemma check_before_checkafter_after_witness :
  result (checkafter 2 25) (after (append 55) (mkSaturationLimit [50; 10; 20; 30; 40] 0))
    = result (check 2 25 55) (mkSaturationLimit [50; 10; 20; 30; 40] 0).
Proof.
  apply (check_before_checkafter_after (mkSaturationLimit [50; 10; 20; 30; 40] 0)).
  - wf_compute.
  - wf_compute.
Defined.

(** * Further properties of the debounce gate *)

(** X10: successive calls of [RateLimit] at Unix-time clock readings, on
    a cell that holds a Unix time, all return; the calls let through are
    each more than [interval] after the one let through before (the first
    one more than [interval] after the seed), and the cell ends up
    holding the clock reading of the last call let through. *)
Theorem grants_are_spaced (fuel : nat) (nows : list Z) (interval d : Z) :
  unix_time d -> Forall unix_time nows ->
  exists answers c,
    RateLimit_calls (S fuel) nows interval d = Some (answers, c) /\
    length answers = length nows /\
    spaced interval d (granted nows answers) /\
    c = last_grant d (granted nows answers) /\
    unix_time c.
Proof.
  intros Hd Hnows. revert d Hd.
  induction Hnows as [| t nows Ht _ IH]; intros d Hd.
  - by exists [], d.
  - rewrite RateLimit_calls_cons.
    assert (Int.sub t d = t - d) as ->
      by (apply sub_exact; unfold unix_time in *; range_lia).
    destruct (Z.leb_spec (t - d) interval) as [Hle | Hgt].
    + destruct (IH d Hd) as (bs & c & -> & Hlen & Hsp & Hc & Hu).
      exists (false :: bs), c. simpl. by rewrite Hlen.
    + destruct (IH t Ht) as (bs & c & -> & Hlen & Hsp & Hc & Hu).
      exists (true :: bs), c. simpl. by rewrite Hlen.
Qed.

Lemma grants_are_spaced_witness :
  exists answers c,
    RateLimit_calls 1 [100; 103; 106; 107; 120] 5 0 = Some (answers, c) /\
    spaced 5 0 (granted [100; 103; 106; 107; 120] answers) /\
    c = last_grant 0 (granted [100; 103; 106; 107; 120] answers).
Proof.
  destruct (grants_are_spaced 0 [100; 103; 106; 107; 120] 5 0)
    as (answers & c & Hcalls & _ & Hsp & Hc & _).
  { wf_compute. }
  { repeat constructor; wf_compute. }
  by exists answers, c.
Defined.

(** X11: [RateLimit] is linearizable, for any number of callers, any
    clock readings, any interval and any interleaving of their atomic
    loads and compare-and-swaps: at every moment, the calls that have
    returned got the answers, and left the cell in the state, of the same
    calls made one after the other in the order of the atomic operations
    that decided them; and every entry of that order is a caller that has
    returned, with its answer. *)
Theorem RateLimit_linearizable
    (interval d0 : Z) (ts : list Z) (n : nat) (cf : config) :
  steps interval n (init d0 ts) cf ->
  RateLimit_calls 1 (returned_clocks cf) interval d0
    = Some (returned_answers cf, cell cf) /\
  Forall (fun e => callers cf !! fst e
                   = Some (Returned (fst (snd e)) (snd (snd e)))) (returns cf) /\
  length (returns cf) = count returned (callers cf).
Proof.
  intros Hsteps.
  destruct (linearized_steps interval d0 n _ _ (init_linearized _ _ _) Hsteps)
    as [Hlin _].
  destruct (logged_steps interval n _ _ (init_logged _ _) Hsteps) as [Hlog Hlen].
  done.
Qed.

Lemma RateLimit_linearizable_witness :
  RateLimit_calls 1
    (returned_clocks (run 5 [0; 1; 1; 0; 0; 0]%nat (init 0 [100; 200]))) 5 0
  = Some (returned_answers (run 5 [0; 1; 1; 0; 0; 0]%nat (init 0 [100; 200])),
          cell (run 5 [0; 1; 1; 0; 0; 0]%nat (init 0 [100; 200]))).
Proof.
  destruct (run_steps 5 [0; 1; 1; 0; 0; 0]%nat (init 0 [100; 200])) as [n Hn].
  exact (proj1 (RateLimit_linearizable 5 0 [100; 200] n _ Hn)).
Defined.

Lemma total_insert_lt f f' (l : list caller) i x old :
  l !! i = Some old ->
  (forall y, (f' y <= f y)%nat) ->
  (f' x < f old)%nat ->
  (total f' (<[i := x]> l) < total f l)%nat.
Proof.
  intros Hl Hle Hlt. revert i Hl.
  induction l as [| y l IH]; intros [| i] Hl; try done; simpl in *.
  - injection Hl as ->. pose proof (total_le f' f l Hle). lia.
  - specialize (IH i Hl). specialize (Hle y). lia.
Qed.

Lemma count_pos p (l : list caller) i x :
  l !! i = Some x -> p x = true -> (1 <= count p l)%nat.
Proof.
  revert i. induction l as [| y l IH]; intros [| i] Hl Hx; try done; simpl in *.
  - injection Hl as ->. rewrite Hx. lia.
  - specialize (IH i Hl Hx). lia.
Qed.

Lemma retry_weight_mono u u' c th :
  (u' <= u)%nat -> (retry_weight u' c th <= retry_weight u c th)%nat.
Proof.
  intros Hu. destruct th as [t | t d | t b]; simpl; [lia | | lia].
  destruct (c =? d); lia.
Qed.

(** Every step uses up some of the retry potential. *)
Lemma retry_potential_step interval cf cf' :
  step interval cf cf' -> (retry_potential cf' < retry_potential cf)%nat.
Proof.
  intros Hstep. destruct Hstep as [i cf cf' Hs].
  destruct (sched_inv _ _ _ _ Hs) as (th & Hi & Hr & ->). clear Hs.
  unfold retry_potential. simpl.
  set (th' := fst (caller_step interval th (cell cf))).
  set (c' := snd (caller_step interval th (cell cf))).
  pose proof (count_insert (fun th => negb (returned th)) _ _ th' _ Hi) as Hcount.
  cbv beta in Hcount. rewrite Hr in Hcount. cbn [negb] in Hcount.
  pose proof (count_pos (fun th => negb (returned th)) _ _ _ Hi) as Hpos.
  cbv beta in Hpos. rewrite Hr in Hpos. specialize (Hpos eq_refl).
  fold (unreturned (callers cf)) in Hcount, Hpos.
  fold (unreturned (<[i := th']> (callers cf))) in Hcount.
  set (U := unreturned (callers cf)) in *.
  set (U' := unreturned (<[i := th']> (callers cf))) in *.
  apply (total_insert_lt (retry_weight U (cell cf)) _ _ _ _ _ Hi).
  - (* no caller gains potential *)
    intros y. subst th' c'.
    destruct th as [t | t d | t b]; simpl in *; [| | done].
    + destruct (Int.sub t (cell cf) <=? interval); simpl in *;
        apply retry_weight_mono; lia.
    + unfold CompareAndSwapInt64 in *.
      destruct (Z.eqb_spec (cell cf) d) as [Hd | Hd]; simpl in *.
      * destruct y as [t' | t' d' | t' b']; simpl; [lia | | lia].
        destruct (t =? d'), (cell cf =? d'); lia.
      * apply retry_weight_mono. lia.
  - (* the caller that moved loses some *)
    subst th' c'.
    destruct th as [t | t d | t b]; simpl in *; [| | done].
    + destruct (Int.sub t (cell cf) <=? interval); simpl in *; [lia |].
      rewrite Z.eqb_refl. lia.
    + unfold CompareAndSwapInt64 in *.
      destruct (Z.eqb_spec (cell cf) d) as [Hd | Hd]; simpl in *; lia.
Qed.

Lemma retry_potential_steps interval n cf cf' :
  steps interval n cf cf' -> (n + retry_potential cf' <= retry_potential cf)%nat.
Proof.
  induction 1 as [cf | n cf cf1 cf2 H1 _ IH]; [lia |].
  pose proof (retry_potential_step _ _ _ H1). lia.
Qed.

Lemma total_retry_fresh u c (l : list Z) :
  total (retry_weight u c) (AtLoad <$> l) = (length l * (2 * u + 1))%nat.
Proof.
  induction l as [| t l IH]; [done |].
  rewrite fmap_cons. cbn [total retry_weight length]. rewrite IH. lia.
Qed.

Lemma unreturned_fresh (l : list Z) : unreturned (AtLoad <$> l) = length l.
Proof.
  unfold unreturned. induction l as [| t l IH]; [done |].
  rewrite fmap_cons. simpl. by rewrite IH.
Qed.

Lemma retry_potential_init d0 (ts : list Z) :
  retry_potential (init d0 ts) = (length ts * (2 * length ts + 1))%nat.
Proof.
  unfold retry_potential, init. simpl.
  by rewrite unreturned_fresh, total_retry_fresh.
Qed.

(** X12: the retry loop of [RateLimit] cannot spin forever.  For [N]
    callers with any clock readings and any interval, every interleaving
    of their atomic steps is at most [N (2 N + 1)] steps long, and as long
    as some caller has not returned a step can be taken: every schedule
    ends with all callers returned. *)
Theorem RateLimit_lock_free
    (interval d0 : Z) (ts : list Z) (n : nat) (cf : config) :
  steps interval n (init d0 ts) cf ->
  (n <= length ts * (2 * length ts + 1))%nat /\
  (~ final cf -> exists cf', step interval cf cf').
Proof.
  intros Hsteps. split.
  - pose proof (retry_potential_steps _ _ _ _ Hsteps) as Hle.
    rewrite retry_potential_init in Hle. lia.
  - intros Hnf. destruct (not_all_returned _ Hnf) as (i & th & Hi & Hr).
    by eapply sched_enabled.
Qed.

Lemma RateLimit_lock_free_witness :
  exists n,
    steps 5 n (init 0 [100; 200]) (run 5 [0; 1; 1; 0; 0; 0]%nat (init 0 [100; 200])) /\
    (n <= 10)%nat.
Proof.
  destruct (run_steps 5 [0; 1; 1; 0; 0; 0]%nat (init 0 [100; 200])) as [n Hn].
  exists n. split; [exact Hn |].
  exact (proj1 (RateLimit_lock_free 5 0 [100; 200] n _ Hn)).
Defined.

(** * AtomicFlag and AtomicBool *)

Lemma flag_run_app ops1 ops2 w :
  AtomicFlag.run (ops1 ++ ops2) w =
    (fst (AtomicFlag.run ops1 w)
       ++ fst (AtomicFlag.run ops2 (snd (AtomicFlag.run ops1 w))),
     snd (AtomicFlag.run ops2 (snd (AtomicFlag.run ops1 w)))).
Proof.
  revert w. induction ops1 as [| [|] ops1 IH]; intros w; simpl.
  - by destruct (AtomicFlag.run ops2 w).
  - rewrite IH. by destruct (AtomicFlag.run ops1 1).
  - by rewrite IH.
Qed.

Lemma flag_contend n w :
  AtomicFlag.run (replicate (S n) AtomicFlag.TestAndSet) w =
    (negb (w =? 0) :: replicate n true, 1).
Proof.
  revert w. induction n as [| n IH]; intros w; [done |].
  change (replicate (S (S n)) AtomicFlag.TestAndSet)
    with (AtomicFlag.TestAndSet :: replicate (S n) AtomicFlag.TestAndSet).
  cbn [AtomicFlag.run]. unfold AtomicFlag.test_and_set, SwapUint32.
  by rewrite IH.
Qed.

(** X13: [AtomicFlag] as a lock.  Whatever calls are made on a flag and
    in whatever order their swaps take effect, the [test_and_set] calls
    that answer false (find the flag clear) are at most one more than the
    [clear] calls, and none more when the flag started out set; of any
    number of [test_and_set] calls in a row only the first can answer
    false, and it does exactly when the flag was clear; and the first
    [test_and_set] after a [clear] always answers false. *)
Theorem flag_acquisitions (ops : list AtomicFlag.op) (w : Z) (n : nat) :
  (AtomicFlag.acquisitions (fst (AtomicFlag.run ops w))
   <= (if (w =? 0)%Z then 1 else 0) + AtomicFlag.clears ops)%nat /\
  AtomicFlag.run (replicate (S n) AtomicFlag.TestAndSet) w
    = (negb (w =? 0) :: replicate n true, 1) /\
  AtomicFlag.run (ops ++ [AtomicFlag.Clear; AtomicFlag.TestAndSet]) w
    = (fst (AtomicFlag.run ops w) ++ [false], 1).
Proof.
  split; [| split].
  - revert w. induction ops as [| [|] ops IH]; intros w.
    + unfold AtomicFlag.acquisitions, AtomicFlag.clears. simpl. lia.
    + cbn [AtomicFlag.run]. unfold AtomicFlag.test_and_set, SwapUint32.
      specialize (IH 1). destruct (AtomicFlag.run ops 1) as [bs w'].
      unfold AtomicFlag.acquisitions, AtomicFlag.clears in *. simpl in *.
      destruct (w =? 0); simpl; lia.
    + cbn [AtomicFlag.run]. unfold AtomicFlag.clear, SwapUint32.
      specialize (IH 0).
      unfold AtomicFlag.acquisitions, AtomicFlag.clears in *. simpl in *.
      destruct (w =? 0); lia.
  - apply flag_contend.
  - by rewrite flag_run_app.
Qed.

Lemma sets_snoc values v w :
  AtomicBool.sets (values ++ [v]) w =
    AtomicBool.set v (snd (AtomicBool.sets values w)).
Proof.
  revert w. induction values as [| a values IH]; intros w; [done |].
  simpl. by rewrite IH.
Qed.

(** X14: [AtomicBool] round trip.  After any sequence of [set] calls,
    [get] returns the value of the one whose store took effect last,
    whatever the word held before; the word then holds 0 or 1; [get]
    never changes the word, and it reads every non-zero word as true. *)
Theorem bool_set_get (values : list bool) (v : bool) (w : Z) :
  fst (AtomicBool.get (snd (AtomicBool.sets (values ++ [v]) w))) = v /\
  snd (AtomicBool.sets (values ++ [v]) w) = (if v then 1 else 0) /\
  snd (AtomicBool.get w) = w /\
  (fst (AtomicBool.get w) = true <-> w <> 0).
Proof.
  rewrite sets_snoc. unfold AtomicBool.set, AtomicBool.get, StoreUint32, LoadUint32.
  simpl. repeat split.
  - by destruct v.
  - destruct (Z.eqb_spec w 0); simpl; [done | done].
  - intros Hw. by destruct (Z.eqb_spec w 0).
Qed.

(** * What the checks count *)

Lemma ascending_snoc l a :
  ascending (l ++ [a]) <-> ascending l /\ Forall (fun t => t <= a) l.
Proof.
  induction l as [| t l IH]; simpl.
  - split; [done |]. intros _. split; [constructor | done].
  - rewrite Forall_app, Forall_singleton, Forall_cons, IH. tauto.
Qed.

Lemma events_within_snoc period curtime l a :
  events_within period curtime (l ++ [a]) =
    (events_within period curtime l
     + (if (curtime - a <=? period)%Z then 1 else 0))%nat.
Proof. induction l as [| t l IH]; simpl; [lia |]. rewrite IH. lia. Qed.

Lemma events_within_none period curtime l a :
  period < curtime - a -> Forall (fun t => t <= a) l ->
  events_within period curtime l = O.
Proof.
  intros Ha. induction 1 as [| t l Ht _ IH]; [done |]. simpl. rewrite IH.
  by destruct (Z.leb_spec (curtime - t) period); [lia |].
Qed.

(** In an ascending history, the [k]-th most recent timestamp lies in the
    window exactly when more than [k] timestamps do. *)
Lemma recent_within period curtime l k v :
  ascending l -> recent l k = Some v ->
  (curtime - v <= period <-> (k < events_within period curtime l)%nat).
Proof.
  revert k v. induction l as [| a l IH] using rev_ind; intros k v Hasc.
  - unfold recent. simpl. by rewrite lookup_nil.
  - apply ascending_snoc in Hasc as [Hasc Hle].
    unfold recent. rewrite rev_unit, events_within_snoc. intros Hrec.
    destruct (Z.leb_spec (curtime - a) period) as [Hin | Hout].
    + destruct k as [| k]; simpl in Hrec.
      * injection Hrec as <-. lia.
      * rewrite (IH k v Hasc Hrec). lia.
    + rewrite (events_within_none period curtime l a Hout Hle).
      destruct k as [| k]; simpl in Hrec.
      * injection Hrec as <-. lia.
      * pose proof (IH k v Hasc Hrec) as Hk.
        rewrite (events_within_none period curtime l a Hout Hle) in Hk. lia.
Qed.

Lemma recent_unix l k v : Forall unix_time l -> recent l k = Some v -> unix_time v.
Proof.
  intros Hl Hrec. unfold recent in Hrec.
  apply (Forall_lookup_1 _ _ _ _ (Forall_rev Hl) Hrec).
Qed.



(** X16: a negative interval switches the gate off.  With clock readings
    that are Unix times and never run backwards from the cell's value,
    every call of [RateLimit] returns true and the cell follows the
    clock. *)
Theorem negative_interval_never_limits
    (fuel : nat) (nows : list Z) (interval d : Z) :
  interval < 0 ->
  Forall unix_time (d :: nows) -> ascending (d :: nows) ->
  RateLimit_calls (S fuel) nows interval d
    = Some (replicate (length nows) true, last_grant d nows).
Proof.
  intros Hneg. revert d. induction nows as [| t nows IH]; intros d Hunix Hasc.
  - done.
  - apply Forall_cons in Hunix as [Hd Hunix]. pose proof Hunix as Hunix'.
    apply Forall_cons in Hunix' as [Ht _].
    destruct Hasc as [Hle Hasc]. apply Forall_cons in Hle as [Hdt _].
    rewrite RateLimit_calls_cons.
    rewrite sub_exact by (unfold unix_time in *; range_lia).
    destruct (Z.leb_spec (t - d) interval) as [| _]; [lia |].
    by rewrite (IH t Hunix Hasc).
Qed.

Lemma negative_interval_never_limits_witness :
  RateLimit_calls 1 [100; 100; 101] (-1) 100
    = Some ([true; true; true], 101).
Proof.
  apply (negative_interval_never_limits 0 [100; 100; 101] (-1) 100).
  - lia.
  - repeat constructor; wf_compute.
  - simpl. repeat split; repeat constructor; lia.
Defined.
